(** * MessagePortMinifier: request coordination over a MessagePort

    A shallow embedding of
    [webpack/module-minifier-plugin/src/MessagePortMinifier.ts]
    and of the data shapes it uses from [ModuleMinifierPlugin.types.ts].

    The class keeps a [Map] from request hash to an array of callbacks,
    posts one request per hash to a [MessagePort], and a listener installed
    by [connect] hands each result to the callbacks queued for its hash.

    The methods are written as programs over the primitive operations they
    perform (map and array operations, port operations, calls into client
    callbacks), in the order in which the source performs them.  An
    interpreter runs a program on a state: the map, the array objects it
    refers to, the listeners of the port, and a log of what the port and
    the callbacks got to see.  The client and the worker act through
    events: calls of [minify], [connect] and [disconnect], and messages
    emitted by the port. *)

From stdpp Require Import gmap strings list fin_maps.

Set Default Proof Using "Type".
Set Warnings "-register-all".

(** * The program *)

(** ** Data shapes ([ModuleMinifierPlugin.types.ts]) *)

(** [IModuleMinificationRequest]: [hash] is the identity of the request. *)
Record IModuleMinificationRequest : Type := {
  hash : string;
  code : string;
  nameForMap : option string;
  externals : option (list string)
}.

(** [RawSourceMap] and [Error] are payloads the minifier never inspects. *)
Definition RawSourceMap : Type := string.
Definition Error : Type := string.

(** [IModuleMinificationResult =
      IModuleMinificationErrorResult | IModuleMinificationSuccessResult] *)
Inductive IModuleMinificationResult : Type :=
| IModuleMinificationErrorResult (h : string) (error : Error)
| IModuleMinificationSuccessResult (h : string) (c : string)
    (map : option RawSourceMap).

(** [message.hash] *)
Definition result_hash (r : IModuleMinificationResult) : string :=
  match r with
  | IModuleMinificationErrorResult h _ => h
  | IModuleMinificationSuccessResult h _ _ => h
  end.

(** [IModuleMinificationCallback]: client code.  A callback is known by a
    name, under which its invocations are recorded; when invoked with a
    result it may call [minify] again, with the requests and callbacks
    listed by [cb_reenter], and then returns. *)
Inductive IModuleMinificationCallback : Type :=
| Callback (name : nat)
    (reenter : IModuleMinificationResult ->
               list (IModuleMinificationRequest * IModuleMinificationCallback)).

Definition cb_name (c : IModuleMinificationCallback) : nat :=
  match c with Callback n _ => n end.

Definition cb_reenter (c : IModuleMinificationCallback) :
  IModuleMinificationResult ->
  list (IModuleMinificationRequest * IModuleMinificationCallback) :=
  match c with Callback _ f => f end.

(** Values that arrive on the port: the handler's parameter type
    [IModuleMinificationResult | number | false], and the string that
    answers the handshake. *)
Inductive Message : Type :=
| MString (s : string)
| MResult (r : IModuleMinificationResult)
| MNumber (n : Z)
| MFalse.

(** The JavaScript [typeof] of a message; the results are the messages
    whose [typeof] is "object". *)
Definition typeof (m : Message) : string :=
  match m with
  | MString _ => "string"
  | MResult _ => "object"
  | MNumber _ => "number"
  | MFalse => "boolean"
  end.

(** Values handed to [port.postMessage]. *)
Inductive Outbound : Type :=
| OutString (s : string)
| OutRequest (r : IModuleMinificationRequest).

(** What a promise is fulfilled with: a message, or an array of messages. *)
Inductive JsValue : Type :=
| JsMessage (m : Message)
| JsArray (ms : list Message).

(** Exceptions. *)
Inductive JsError : Type :=
| TypeError (message : string).

(** ** State *)

(** Array objects are referred to by location. *)
Abbreviation loc := nat.

(** The 'message' listeners of the port.  [connect] registers a one-shot
    listener that fulfils its promise, and later its [handler] closure;
    both are identified by the number of the [connect] call. *)
Inductive Listener : Type :=
| OnceResolver (p : nat)
| HandlerFn (p : nat).

Global Instance Listener_eq_dec : EqDecision Listener.
Proof. solve_decision. Defined.

(** Observations, in the order the effects happen. *)
Inductive Obs : Type :=
| Posted (m : Outbound)                          (* port.postMessage(m) *)
| Called (c : nat) (r : IModuleMinificationResult) (* callback c entered *)
| Removed (h : string).                 (* callbacks.delete(h) found h *)

(** The state.  [_callbacks] is the field of the class; its values are
    references to array objects, kept in [arrays] (an array is shared
    between the map and the loop of the handler that iterates over it).
    [listeners] and [closed] belong to the port.  [promises],
    [microtasks] and [connections] follow the calls of [connect]: how many
    were made, which of them have their awaited promise fulfilled and
    still have to resume, and which have returned their connection.
    [log] records what was observed and has no influence on the run. *)
Record State : Type := {
  _callbacks : gmap string loc;       (* this._callbacks *)
  arrays : gmap loc (list IModuleMinificationCallback); (* array objects *)
  listeners : list Listener;          (* port: 'message' listeners *)
  closed : bool;                      (* port.close() was called *)
  promises : nat;                     (* connect() calls made so far *)
  microtasks : list (nat * JsValue);  (* fulfilled promises awaited *)
  connections : list (nat * JsValue); (* connections handed out, with
                                         their configHash *)
  log : list Obs
}.

(** [new MessagePortMinifier(port)] *)
Definition init : State := {|
  _callbacks := ∅; arrays := ∅; listeners := []; closed := false;
  promises := 0; microtasks := []; connections := []; log := []
|}.

Definition set_callbacks (f : gmap string loc -> gmap string loc)
  (st : State) : State :=
  {| _callbacks := f (_callbacks st); arrays := arrays st;
     listeners := listeners st; closed := closed st;
     promises := promises st; microtasks := microtasks st;
     connections := connections st; log := log st |}.

Definition set_arrays
  (f : gmap loc (list IModuleMinificationCallback) ->
       gmap loc (list IModuleMinificationCallback))
  (st : State) : State :=
  {| _callbacks := _callbacks st; arrays := f (arrays st);
     listeners := listeners st; closed := closed st;
     promises := promises st; microtasks := microtasks st;
     connections := connections st; log := log st |}.

Definition set_listeners (f : list Listener -> list Listener)
  (st : State) : State :=
  {| _callbacks := _callbacks st; arrays := arrays st;
     listeners := f (listeners st); closed := closed st;
     promises := promises st; microtasks := microtasks st;
     connections := connections st; log := log st |}.

Definition set_closed (b : bool) (st : State) : State :=
  {| _callbacks := _callbacks st; arrays := arrays st;
     listeners := listeners st; closed := b;
     promises := promises st; microtasks := microtasks st;
     connections := connections st; log := log st |}.

Definition set_promises (n : nat) (st : State) : State :=
  {| _callbacks := _callbacks st; arrays := arrays st;
     listeners := listeners st; closed := closed st;
     promises := n; microtasks := microtasks st;
     connections := connections st; log := log st |}.

Definition set_microtasks
  (f : list (nat * JsValue) -> list (nat * JsValue)) (st : State) : State :=
  {| _callbacks := _callbacks st; arrays := arrays st;
     listeners := listeners st; closed := closed st;
     promises := promises st; microtasks := f (microtasks st);
     connections := connections st; log := log st |}.

Definition set_connections
  (f : list (nat * JsValue) -> list (nat * JsValue)) (st : State) : State :=
  {| _callbacks := _callbacks st; arrays := arrays st;
     listeners := listeners st; closed := closed st;
     promises := promises st; microtasks := microtasks st;
     connections := f (connections st); log := log st |}.

Definition observe (o : Obs) (st : State) : State :=
  {| _callbacks := _callbacks st; arrays := arrays st;
     listeners := listeners st; closed := closed st;
     promises := promises st; microtasks := microtasks st;
     connections := connections st; log := log st ++ [o] |}.

(** ** Primitive operations *)

Inductive Prim : Type :=
| MapGet (h : string)                           (* _callbacks.get(h) *)
| MapSet (h : string) (a : loc)                 (* _callbacks.set(h, a) *)
| MapDelete (h : string)                        (* _callbacks.delete(h) *)
| ArrayLit (c : IModuleMinificationCallback)    (* [c] *)
| ArrayPush (a : loc) (c : IModuleMinificationCallback) (* a.push(c) *)
| ArrayLength (a : loc)                         (* a.length *)
| ArrayGet (a : loc) (i : nat)                  (* iterator step *)
| PostMessage (m : Outbound)                    (* port.postMessage(m) *)
| Enter (c : nat) (r : IModuleMinificationResult)
| NewPromise
| PortOn (l : Listener)                         (* port.on('message', l) *)
| PortOff (l : Listener)                        (* port.off('message', l) *)
| PortClose                                     (* port.close() *)
| PortListeners
| Fulfil (p : nat) (v : JsValue)
| TakeMicrotasks
| Settle (p : nat) (configHash : JsValue).

(** The type of the result of a primitive. *)
Definition Res (op : Prim) : Type :=
  match op with
  | MapGet _ => option loc
  | ArrayLit _ => loc
  | ArrayLength _ => nat
  | ArrayGet _ _ => option IModuleMinificationCallback
  | NewPromise => nat
  | PortListeners => list Listener
  | TakeMicrotasks => list (nat * JsValue)
  | _ => unit
  end.

(** The effect of one primitive on the state, and its result.
    - [ArrayLit] allocates a location that no array object occupies.
    - [MapDelete] of an absent key changes nothing.
    - [ArrayGet a i] is one step of the array iterator: the element at
      index [i], or nothing when [i] is past the current length.
    - [PortOff] removes the listener; each listener is registered once.
    - [Fulfil] queues the continuation awaiting promise [p].
    - [Settle] fulfils the promise returned by [connect] with the
      connection [{ configHash, disconnect }]. *)
Definition prim (op : Prim) (st : State) : State * Res op :=
  match op return State * Res op with
  | MapGet h => (st, _callbacks st !! h)
  | MapSet h a => (set_callbacks (insert h a) st, tt)
  | MapDelete h =>
      match _callbacks st !! h with
      | Some _ => (observe (Removed h) (set_callbacks (delete h) st), tt)
      | None => (st, tt)
      end
  | ArrayLit c =>
      let a := fresh (dom (arrays st)) in
      (set_arrays (insert a [c]) st, a)
  | ArrayPush a c => (set_arrays (alter (fun cs => cs ++ [c]) a) st, tt)
  | ArrayLength a => (st, length (default [] (arrays st !! a)))
  | ArrayGet a i => (st, default [] (arrays st !! a) !! i)
  | PostMessage m => (observe (Posted m) st, tt)
  | Enter c r => (observe (Called c r) st, tt)
  | NewPromise => (set_promises (S (promises st)) st, promises st)
  | PortOn l => (set_listeners (fun ls => ls ++ [l]) st, tt)
  | PortOff l => (set_listeners (filter (fun l' => l' ≠ l)) st, tt)
  | PortClose => (set_closed true st, tt)
  | PortListeners => (st, listeners st)
  | Fulfil p v => (set_microtasks (fun q => q ++ [(p, v)]) st, tt)
  | TakeMicrotasks => (set_microtasks (fun _ => []) st, microtasks st)
  | Settle p v => (set_connections (fun cs => cs ++ [(p, v)]) st, tt)
  end.

(** ** Programs *)

Inductive Prog (A : Type) : Type :=
| Ret (a : A)
| Throw (e : JsError)
| OutOfFuel
| Op (op : Prim) (k : Res op -> Prog A).

Arguments Ret {A} a.
Arguments Throw {A} e.
Arguments OutOfFuel {A}.
Arguments Op {A} op k.

Fixpoint bind {A B : Type} (p : Prog A) (f : A -> Prog B) : Prog B :=
  match p with
  | Ret a => f a
  | Throw e => Throw e
  | OutOfFuel => OutOfFuel
  | Op op k => Op op (fun x => bind (k x) f)
  end.

Global Instance Prog_ret : MRet Prog := @Ret.
Global Instance Prog_bind : MBind Prog := fun A B f p => bind p f.

Definition do (op : Prim) : Prog (Res op) := Op op Ret.

(** [for (const x of xs) body(x)] over a list value. *)
Fixpoint iterM {A : Type} (body : A -> Prog unit) (xs : list A) : Prog unit :=
  match xs with
  | [] => Ret tt
  | x :: xs' => body x ;; iterM body xs'
  end.

(** Result of running a program. *)
Inductive Outcome (A : Type) : Type :=
| Normal (st : State) (a : A)
| Thrown (st : State) (e : JsError)
| Exhausted (st : State).

Arguments Normal {A} st a.
Arguments Thrown {A} st e.
Arguments Exhausted {A} st.

Definition final {A : Type} (o : Outcome A) : State :=
  match o with
  | Normal st _ => st
  | Thrown st _ => st
  | Exhausted st => st
  end.

Fixpoint run {A : Type} (p : Prog A) (st : State) : Outcome A :=
  match p with
  | Ret a => Normal st a
  | Throw e => Thrown st e
  | OutOfFuel => Exhausted st
  | Op op k => let '(st', x) := prim op st in run (k x) st'
  end.

(** The primitives a run performs, each with the state it is performed
    in. *)
Fixpoint points {A : Type} (p : Prog A) (st : State) :
  list (State * Prim) :=
  match p with
  | Op op k => (st, op) :: let '(st', x) := prim op st in points (k x) st'
  | _ => []
  end.

(** ** The class [MessagePortMinifier] *)

(** [minify(request, callback)] *)
Definition minify (request : IModuleMinificationRequest)
  (callback : IModuleMinificationCallback) : Prog unit :=
  callbacks ← do (MapGet (hash request));
  match callbacks with
  | Some a => do (ArrayPush a callback)
  | None =>
      a ← do (ArrayLit callback);
      do (MapSet (hash request) a);;
      do (PostMessage (OutRequest request))
  end.

(** [callback(message)]: control enters the callback, which may call
    [minify]. *)
Definition call (callback : IModuleMinificationCallback)
  (message : IModuleMinificationResult) : Prog unit :=
  do (Enter (cb_name callback) message);;
  iterM (fun rc => minify rc.1 rc.2) (cb_reenter callback message).

(** [for (const callback of a) body(callback)] over the array object at
    [a], from index [i] on.  Every round reads the array as it is then.
    [fuel] bounds the number of rounds. *)
Fixpoint for_of (fuel : nat) (a : loc) (i : nat)
  (body : IModuleMinificationCallback -> Prog unit) : Prog unit :=
  x ← do (ArrayGet a i);
  match x with
  | None => Ret tt
  | Some c =>
      match fuel with
      | O => OutOfFuel
      | S fuel' => body c;; for_of fuel' a (S i) body
      end
  end.

(** [handler(message)], the closure that [connect] installs; it works on
    the same map as [minify].  [typeof message === 'object'] holds of the
    results only.  [callbacks.get(message.hash)!] is [undefined] for a
    hash without entry (the [!] is erased by the compiler), and iterating
    over [undefined] throws a [TypeError], whose text names the
    expression, not its value.  The loop is given as many rounds as the
    array has elements when the loop starts; it reports [OutOfFuel] if the
    array has grown by more than that. *)
Definition handler (message : Message) : Prog unit :=
  match message with
  | MResult r =>
      callbacksForRequest ← do (MapGet (result_hash r));
      do (MapDelete (result_hash r));;
      match callbacksForRequest with
      | Some a =>
          n ← do (ArrayLength a);
          for_of n a 0 (fun callback => call callback r)
      | None => Throw (TypeError "callbacksForRequest is not iterable")
      end
  | _ => Ret tt
  end.

(** [connect()] up to its [await]: [once(this.port, 'message')] registers
    a one-shot listener, then the handshake is posted. *)
Definition connect : Prog nat :=
  p ← do NewPromise;
  do (PortOn (OnceResolver p));;
  do (PostMessage (OutString "initialize"));;
  Ret p.

(** [connect()] after its [await], with the value [configHash] the
    awaited promise was fulfilled with: the handler is installed and the
    connection returned. *)
Definition connect_resume (p : nat) (configHash : JsValue) : Prog unit :=
  do (PortOn (HandlerFn p));;
  do (Settle p configHash).

(** [disconnect()] of the connection that [connect] call [p] returned. *)
Definition disconnect (p : nat) : Prog unit :=
  do (PortOff (HandlerFn p));;
  do (PortClose).

(** ** The port *)

(** One listener receives [m].  The listener of [events.once] removes
    itself and fulfils its promise; as Node.js documents for
    [events.once(emitter, name)], "the Promise will resolve with an array
    of all the arguments emitted to the given event": here the array of
    the one message.  (The declared type of that promise is an array type;
    [connect] casts it to [Promise<string>] by way of [unknown], which
    changes nothing at run time.) *)
Definition dispatch (m : Message) (l : Listener) : Prog unit :=
  match l with
  | OnceResolver p =>
      do (PortOff (OnceResolver p));;
      do (Fulfil p (JsArray [m]))
  | HandlerFn _ => handler m
  end.

(** The port emits 'message': the listeners registered at that time run
    in registration order, then the continuations of the promises that
    were fulfilled.  An exception thrown by a listener is not caught: it
    ends the delivery. *)
Definition emit (m : Message) : Prog unit :=
  ls ← do PortListeners;
  iterM (dispatch m) ls;;
  q ← do TakeMicrotasks;
  iterM (fun pv => connect_resume pv.1 pv.2) q.

(** ** Events *)

Inductive Event : Type :=
| EMinify (request : IModuleMinificationRequest)
    (callback : IModuleMinificationCallback)
| EConnect
| EMessage (m : Message)
| EDisconnect (p : nat).

(** What an event runs: a method called by the client, or the listeners
    when the port emits a message.  A closed port delivers nothing; only a
    connection that was handed out can be disconnected. *)
Definition program (st : State) (ev : Event) : Prog unit :=
  match ev with
  | EMinify request callback => minify request callback
  | EConnect => connect;; Ret tt
  | EMessage m => if closed st then Ret tt else emit m
  | EDisconnect p =>
      if decide (p ∈ (connections st).*1) then disconnect p else Ret tt
  end.

Definition step (st : State) (ev : Event) : Outcome unit :=
  run (program st ev) st.

(** A run of events stops at the first one that does not end normally. *)
Fixpoint run_events (st : State) (evs : list Event) : Outcome unit :=
  match evs with
  | [] => Normal st tt
  | ev :: evs' =>
      match step st ev with
      | Normal st' _ => run_events st' evs'
      | o => o
      end
  end.

Definition reachable (st : State) : Prop :=
  ∃ evs, run_events init evs = Normal st tt.

(** * Vocabulary of the properties *)

(** ** Reading the log *)

Definition calls (l : list Obs) : list (nat * IModuleMinificationResult) :=
  omap (fun o => match o with Called c r => Some (c, r) | _ => None end) l.

Definition posts (l : list Obs) : list Outbound :=
  omap (fun o => match o with Posted m => Some m | _ => None end) l.

(** Requests posted for hash [h]. *)
Definition requests_for (h : string) (l : list Obs) :
  list IModuleMinificationRequest :=
  omap (fun o => match o with
                 | Posted (OutRequest r) =>
                     if decide (hash r = h) then Some r else None
                 | _ => None
                 end) l.

(** Number of times the entry of [h] was removed. *)
Definition removals (h : string) (l : list Obs) : nat :=
  length (omap (fun o => match o with
                         | Removed h' =>
                             if decide (h' = h) then Some h' else None
                         | _ => None
                         end) l).

(** The callbacks waiting for [h]: the contents of the array that
    [_callbacks] holds for [h], if any. *)
Definition queue (h : string) (st : State) :
  list IModuleMinificationCallback :=
  match _callbacks st !! h with
  | Some a => default [] (arrays st !! a)
  | None => []
  end.

(** The callbacks that the calls [minify rc.1 rc.2], for [rc] in [rcs],
    register for [h]. *)
Definition registered (h : string)
  (rcs : list (IModuleMinificationRequest * IModuleMinificationCallback)) :
  list IModuleMinificationCallback :=
  (filter (fun rc => hash rc.1 = h) rcs).*2.

(** The calls to [minify] that the callbacks [cbs] make when invoked, one
    after the other, with [r]. *)
Definition reentries (r : IModuleMinificationResult)
  (cbs : list IModuleMinificationCallback) :
  list (IModuleMinificationRequest * IModuleMinificationCallback) :=
  cbs ≫= (fun c => cb_reenter c r).

(** ** Well-formed states *)

(** Every entry of the map refers to an array object that is not empty, no
    array is held under two keys, and a hash has an entry exactly when one
    more request was posted for it than entries were removed. *)
Record wf (st : State) : Prop := {
  wf_entry : ∀ h a, _callbacks st !! h = Some a →
             ∃ cbs, arrays st !! a = Some cbs ∧ cbs ≠ [];
  wf_inj : ∀ h1 h2 a, _callbacks st !! h1 = Some a →
           _callbacks st !! h2 = Some a → h1 = h2;
  wf_count : ∀ h, length (requests_for h (log st)) =
                  removals h (log st) +
                  match _callbacks st !! h with Some _ => 1 | None => 0 end
}.

(** An array object that the map no longer refers to. *)
Definition detached (a : loc) (cbs : list IModuleMinificationCallback)
  (st : State) : Prop :=
  arrays st !! a = Some cbs ∧ ∀ h, _callbacks st !! h ≠ Some a.

(** The port, the promises and the connections are the same. *)
Definition same_port (st st' : State) : Prop :=
  listeners st' = listeners st ∧ closed st' = closed st ∧
  promises st' = promises st ∧ microtasks st' = microtasks st ∧
  connections st' = connections st.

(** [st'] comes from [st] by registering the callbacks of [rcs] and
    calling the callbacks [cs]: nothing else changed. *)
Record evolves
  (rcs : list (IModuleMinificationRequest * IModuleMinificationCallback))
  (cs : list (nat * IModuleMinificationResult))
  (st st' : State) : Prop := {
  ev_wf : wf st';
  ev_queue : ∀ h, queue h st' = queue h st ++ registered h rcs;
  ev_detached : ∀ a cbs, detached a cbs st → detached a cbs st';
  ev_removals : ∀ h, removals h (log st') = removals h (log st);
  ev_calls : calls (log st') = calls (log st) ++ cs;
  ev_log : log st `prefix_of` log st';
  ev_port : same_port st st'
}.

(** [st'] comes from [st] by one run of [handler] on the result [r] while
    the callbacks [cbs] were waiting for its hash. *)
Record delivers (r : IModuleMinificationResult)
  (cbs : list IModuleMinificationCallback) (st st' : State) : Prop := {
  dl_wf : wf st';
  dl_queue : ∀ h,
    queue h st' =
    (if decide (h = result_hash r) then [] else queue h st) ++
    registered h (reentries r cbs);
  dl_removals : ∀ h,
    removals h (log st') =
    removals h (log st) + (if decide (h = result_hash r) then 1 else 0);
  dl_calls :
    calls (log st') = calls (log st) ++ ((fun c => (cb_name c, r)) <$> cbs);
  dl_log : log st `prefix_of` log st';
  dl_port : same_port st st';
  dl_detached : ∀ a, _callbacks st !! result_hash r = Some a →
                detached a cbs st'
}.

(** ** Delivery of a message *)

(** Ids of the one-shot listeners among [ls]. *)
Definition once_ids (ls : list Listener) : list nat :=
  omap (fun l => match l with OnceResolver p => Some p | _ => None end) ls.

(** The map, the arrays and the log are the same. *)
Definition same_heap (st st' : State) : Prop :=
  _callbacks st' = _callbacks st ∧ arrays st' = arrays st ∧
  log st' = log st.

(** What is kept about the callbacks waiting for [h] by a step that does
    not deliver a result for [h]. *)
Record frame (h : string) (st st' : State) : Prop := {
  fr_queue : ∃ ext, queue h st' = queue h st ++ ext;
  fr_removals : removals h (log st') = removals h (log st)
}.

(** [st'] comes from [st] by handing the message [m] to the listeners
    [ls]. *)
Record dispatched (m : Message) (ls : list Listener) (st st' : State) :
  Prop := {
  dp_wf : wf st';
  dp_log : log st `prefix_of` log st';
  dp_frame : ∀ h, (∀ r, m = MResult r → result_hash r ≠ h) → frame h st st';
  dp_ignored : typeof m ≠ "object" → same_heap st st';
  dp_listeners :
    listeners st' =
    filter (fun l => l ∉ OnceResolver <$> once_ids ls) (listeners st);
  dp_microtasks :
    microtasks st' =
    microtasks st ++ ((fun p => (p, JsArray [m])) <$> once_ids ls);
  dp_closed : closed st' = closed st;
  dp_promises : promises st' = promises st;
  dp_connections : connections st' = connections st
}.

(** [st'] comes from [st] by the port emitting [m]. *)
Record emitted (m : Message) (st st' : State) : Prop := {
  em_wf : wf st';
  em_log : log st `prefix_of` log st';
  em_frame : ∀ h, (∀ r, m = MResult r → result_hash r ≠ h) → frame h st st';
  em_ignored : typeof m ≠ "object" → same_heap st st';
  em_listeners :
    listeners st' =
    filter (fun l => l ∉ OnceResolver <$> once_ids (listeners st))
      (listeners st) ++ (HandlerFn <$> once_ids (listeners st));
  em_microtasks : microtasks st' = [];
  em_closed : closed st' = closed st;
  em_promises : promises st' = promises st;
  em_connections :
    connections st' =
    connections st ++
    ((fun p => (p, JsArray [m])) <$> once_ids (listeners st))
}.


(** ** Events and runs *)

(** [ev] delivers a result for [h]. *)
Definition answers (h : string) (ev : Event) : bool :=
  match ev with
  | EMessage (MResult r) => bool_decide (result_hash r = h)
  | _ => false
  end.

(** [ev] is the delivery of a message. *)
Definition is_message (ev : Event) : bool :=
  match ev with EMessage _ => true | _ => false end.

(** [ev] is a call of [minify]. *)
Definition is_minify (ev : Event) : bool :=
  match ev with EMinify _ _ => true | _ => false end.

(** The callbacks that the client registers for [h] by the calls of
    [minify] among [evs], in order. *)
Definition client_registered (h : string) (evs : list Event) :
  list IModuleMinificationCallback :=
  registered h
    (omap (fun ev => match ev with
                     | EMinify request callback => Some (request, callback)
                     | _ => None
                     end) evs).

(** Between two events no continuation is waiting; the handlers come
    before the one-shot listeners; and a listener or a connection belongs
    to a [connect] call that was made. *)
Record port_ok (st : State) : Prop := {
  po_microtasks : microtasks st = [];
  po_order : ∃ hs os,
    listeners st = (HandlerFn <$> hs) ++ (OnceResolver <$> os);
  po_once : ∀ p, OnceResolver p ∈ listeners st → p < promises st;
  po_connections : ∀ p, p ∈ (connections st).*1 → p < promises st
}.

(** What any event that returns keeps. *)
Record stepped (ev : Event) (st st' : State) : Prop := {
  sp_wf : wf st';
  sp_port : port_ok st';
  sp_log : log st `prefix_of` log st';
  sp_frame : ∀ h, answers h ev = false →
    ∃ ext, queue h st' = queue h st ++ ext ∧
           client_registered h [ev] `sublist_of` ext ∧
           (is_minify ev = true → ext = client_registered h [ev]) ∧
           removals h (log st') = removals h (log st);
  sp_calls : is_message ev = false → calls (log st') = calls (log st);
  sp_connections : is_message ev = false → connections st' = connections st;
  sp_handlers : is_message ev = false →
    ∀ q, HandlerFn q ∈ listeners st' → HandlerFn q ∈ listeners st;
  sp_onces : is_message ev = false →
    ∀ q, OnceResolver q ∈ listeners st → OnceResolver q ∈ listeners st';
  sp_closed : closed st = true → closed st' = true
}.

(** What a run of events that returns keeps, for a hash [h] of which the
    run delivers no result. *)
Record ran (h : string) (evs : list Event) (st st' : State) : Prop := {
  rn_wf : wf st';
  rn_port : port_ok st';
  rn_log : log st `prefix_of` log st';
  rn_queue : ∃ ext,
    queue h st' = queue h st ++ ext ∧
    client_registered h evs `sublist_of` ext ∧
    (forallb is_minify evs = true → ext = client_registered h evs);
  rn_removals : removals h (log st') = removals h (log st)
}.

(** ** The order of the primitives *)

(** Whenever the program hands a request to the port, the map holds an
    entry for the hash of the request. *)
Definition sends_ok {A : Type} (p : Prog A) : Prop :=
  ∀ st s r, (s, PostMessage (OutRequest r)) ∈ points p st →
            is_Some (_callbacks s !! hash r).

(** ** A concrete run

    The client connects, the worker answers "cfg-123", and the client
    asks twice for the module of hash "a". *)

Definition request_a : IModuleMinificationRequest :=
  {| hash := "a"; code := "x"; nameForMap := None; externals := None |}.

Definition request_a_again : IModuleMinificationRequest :=
  {| hash := "a"; code := "x-ignored"; nameForMap := None;
     externals := None |}.

Definition cb1 : IModuleMinificationCallback := Callback 1 (fun _ => []).
Definition cb2 : IModuleMinificationCallback := Callback 2 (fun _ => []).

Definition result_a : IModuleMinificationResult :=
  IModuleMinificationSuccessResult "a" "minified_x" None.

(** The state once [connect] has returned its connection. *)
Definition connected : State :=
  final (run_events init [EConnect; EMessage (MString "cfg-123")]).

(** The state once both calls of [minify] have returned. *)
Definition waiting : State :=
  final (run_events connected
           [EMinify request_a cb1; EMinify request_a_again cb2]).

(** ** Further vocabulary *)

(** Some handler is among the listeners [ls]. *)
Definition has_handler (ls : list Listener) : bool :=
  existsb (fun l => match l with HandlerFn _ => true | _ => false end) ls.

(** Some one-shot listener is among the listeners [ls]. *)
Definition has_once (ls : list Listener) : bool :=
  existsb (fun l => match l with OnceResolver _ => true | _ => false end) ls.

(** The requests that a series of calls of [minify] posts, when the hashes
    in [pending] have an entry before the first call: of each hash not in
    [pending], the request of the first call for it. *)
Fixpoint first_requests (pending : gset string)
  (rcs : list (IModuleMinificationRequest * IModuleMinificationCallback)) :
  list IModuleMinificationRequest :=
  match rcs with
  | [] => []
  | rc :: rcs' =>
      if decide (hash rc.1 ∈ pending)
      then first_requests pending rcs'
      else rc.1 :: first_requests ({[hash rc.1]} ∪ pending) rcs'
  end.

(** The client asked for "a" before it called [connect], and [connect] is
    waiting for the answer to the handshake. *)
Definition handshaking : State :=
  final (run_events init [EMinify request_a cb1; EConnect]).

(** [connect] was called twice before the worker answered; then the client
    asked for "a". *)
Definition connected_twice : State :=
  final (run_events init
           [EConnect; EConnect; EMessage (MString "cfg-123");
            EMinify request_a cb1]).

(** Another request, for the hash "b". *)
Definition request_b : IModuleMinificationRequest :=
  {| hash := "b"; code := "y"; nameForMap := None; externals := None |}.

(** Both "a" (two callbacks) and "b" (one callback) are waited for. *)
Definition waiting_ab : State :=
  final (run_events waiting [EMinify request_b (Callback 3 (fun _ => []))]).

(** * [BaseScriptAction]

    [apps/rush-lib/src/cli/scriptActions/BaseScriptAction.ts]: the base
    class of the command-line actions that run user-defined scripts.  Its
    method [defineScriptParameters] defines, on the action, the
    command-line parameters that [command-line.json] associates with the
    command. *)

Module BaseScriptAction.

(** [new Error(message)] *)
Inductive JsException : Type :=
| NewError (message : string).

(** An element of [alternatives]; the method reads its [name] only. *)
Record IChoiceParameterAlternativeJson : Type := {
  name : string
}.

(** [ParameterJson], an entry of [command-line.json], with the fields that
    the method reads.  [parameterKind] is the string found in the file;
    [alternatives] and [defaultValue] are read for the kind "choice" only,
    [argumentName] for the kind "string" only. *)
Record ParameterJson : Type := {
  parameterKind : string;
  longName : string;
  shortName : option string;
  description : string;
  required : option bool;
  alternatives : list IChoiceParameterAlternativeJson;
  defaultValue : option string;
  argumentName : string
}.

(** The object literals passed to [defineFlagParameter],
    [defineChoiceParameter] and [defineStringParameter]. *)
Record FlagDefinition : Type := {
  flag_parameterShortName : option string;
  flag_parameterLongName : string;
  flag_description : string;
  flag_required : option bool
}.

Record ChoiceDefinition : Type := {
  choice_parameterShortName : option string;
  choice_parameterLongName : string;
  choice_description : string;
  choice_required : option bool;
  choice_alternatives : list string;
  choice_defaultValue : option string
}.

Record StringDefinition : Type := {
  string_parameterLongName : string;
  string_parameterShortName : option string;
  string_description : string;
  string_required : option bool;
  string_argumentName : string
}.

(** A call of one of the three methods returns the parameter it defined,
    or throws; either way it may have changed the provider. *)
Inductive DefineResult (Provider CommandLineParameter : Type) : Type :=
| Defines (provider : Provider) (parameter : CommandLineParameter)
| Rejects (provider : Provider) (e : JsException).

Arguments Defines {Provider CommandLineParameter} provider parameter.
Arguments Rejects {Provider CommandLineParameter} provider e.

(** The methods that the action inherits from the parameter provider of
    [@rushstack/ts-command-line]; their code is not part of these
    sources, so they are taken as given. *)
Class CommandLineParameterProvider (Provider CommandLineParameter : Type) :=
{
  defineFlagParameter :
    FlagDefinition → Provider → DefineResult Provider CommandLineParameter;
  defineChoiceParameter :
    ChoiceDefinition → Provider → DefineResult Provider CommandLineParameter;
  defineStringParameter :
    StringDefinition → Provider → DefineResult Provider CommandLineParameter
}.

(** [IRegisteredCustomParameter] *)
Record IRegisteredCustomParameter (CommandLineParameter : Type) : Type := {
  parameter : ParameterJson;
  tsCommandLineParameter : CommandLineParameter
}.

Arguments parameter {CommandLineParameter} _.
Arguments tsCommandLineParameter {CommandLineParameter} _.

(** [CommandLineConfiguration]: the method only tests that there is
    one. *)
Inductive CommandLineConfiguration : Type :=
| TheCommandLineConfiguration.

(** [Command], with the field that the method reads, in the order in
    which [for ... of] visits it. *)
Record Command : Type := {
  associatedParameters : list ParameterJson
}.

(** The fields of the action; [provider] stands for the state that the
    inherited methods work on. *)
Record BaseScriptAction (Provider CommandLineParameter : Type) : Type := {
  provider : Provider;
  commandLineConfiguration : option CommandLineConfiguration;
  customParameters : list (IRegisteredCustomParameter CommandLineParameter);
  command : Command
}.

Arguments provider {Provider CommandLineParameter} _.
Arguments commandLineConfiguration {Provider CommandLineParameter} _.
Arguments customParameters {Provider CommandLineParameter} _.
Arguments command {Provider CommandLineParameter} _.

(** How a method ends: it returns, or throws, with the action as it is
    then. *)
Inductive Completion (A : Type) : Type :=
| Returned (this : A)
| Threw (this : A) (e : JsException).

Arguments Returned {A} this.
Arguments Threw {A} this e.

(** The double quote character. *)
Definition quote : string := String (Ascii.ascii_of_nat 34) EmptyString.

(** The parameter kinds that the [switch] has a case for. *)
Definition supported (p : ParameterJson) : Prop :=
  parameterKind p = "flag" ∨ parameterKind p = "choice" ∨
  parameterKind p = "string".

Global Instance supported_dec p : Decision (supported p).
Proof. unfold supported. apply _. Defined.

Section WithProvider.
Context {Provider CommandLineParameter : Type}.
Context {methods : CommandLineParameterProvider Provider CommandLineParameter}.

(** [RushConstants.commandLineFilename] *)
Variable commandLineFilename : string.

(** The constructor: [customParameters] starts empty; [provider] is what
    [super(options)] has set up. *)
Definition constructor (provider : Provider)
  (commandLineConfiguration : option CommandLineConfiguration)
  (command : Command) : BaseScriptAction Provider CommandLineParameter :=
  {| provider := provider;
     commandLineConfiguration := commandLineConfiguration;
     customParameters := [];
     command := command |}.

(** The message of the error thrown in the [default] case. *)
Definition unsupported_message (parameter : ParameterJson) : string :=
  commandLineFilename +:+ " defines a parameter " +:+ quote +:+
  longName parameter +:+ quote +:+
  " using an unsupported parameter kind " +:+ quote +:+
  parameterKind parameter +:+ quote.

(** The [switch] on [parameter.parameterKind]; [None] is the [default]
    case. *)
Definition define (parameter : ParameterJson) (provider : Provider) :
  option (DefineResult Provider CommandLineParameter) :=
  if decide (parameterKind parameter = "flag") then
    Some (defineFlagParameter
            {| flag_parameterShortName := shortName parameter;
               flag_parameterLongName := longName parameter;
               flag_description := description parameter;
               flag_required := required parameter |} provider)
  else if decide (parameterKind parameter = "choice") then
    Some (defineChoiceParameter
            {| choice_parameterShortName := shortName parameter;
               choice_parameterLongName := longName parameter;
               choice_description := description parameter;
               choice_required := required parameter;
               choice_alternatives := name <$> alternatives parameter;
               choice_defaultValue := defaultValue parameter |} provider)
  else if decide (parameterKind parameter = "string") then
    Some (defineStringParameter
            {| string_parameterLongName := longName parameter;
               string_parameterShortName := shortName parameter;
               string_description := description parameter;
               string_required := required parameter;
               string_argumentName := argumentName parameter |} provider)
  else None.

(** The body of [for (const parameter of ...)], over the parameters that
    are left. *)
Fixpoint defineEach (parameters : list ParameterJson)
  (this : BaseScriptAction Provider CommandLineParameter) :
  Completion (BaseScriptAction Provider CommandLineParameter) :=
  match parameters with
  | [] => Returned this
  | parameter :: rest =>
      match define parameter (provider this) with
      | Some (Defines provider' tsCommandLineParameter) =>
          defineEach rest
            {| provider := provider';
               commandLineConfiguration := commandLineConfiguration this;
               customParameters :=
                 customParameters this ++
                 [{| parameter := parameter;
                     tsCommandLineParameter := tsCommandLineParameter |}];
               command := command this |}
      | Some (Rejects provider' e) =>
          Threw {| provider := provider';
                   commandLineConfiguration := commandLineConfiguration this;
                   customParameters := customParameters this;
                   command := command this |} e
      | None => Threw this (NewError (unsupported_message parameter))
      end
  end.

(** [defineScriptParameters()] *)
Definition defineScriptParameters
  (this : BaseScriptAction Provider CommandLineParameter) :
  Completion (BaseScriptAction Provider CommandLineParameter) :=
  match commandLineConfiguration this with
  | None => Returned this
  | Some _ => defineEach (associatedParameters (command this)) this
  end.

(** A provider that accepts every definition. *)
Definition accepts_all : Prop :=
  (∀ d pr, ∃ pr' p, defineFlagParameter d pr = Defines pr' p) ∧
  (∀ d pr, ∃ pr' p, defineChoiceParameter d pr = Defines pr' p) ∧
  (∀ d pr, ∃ pr' p, defineStringParameter d pr = Defines pr' p).

End WithProvider.

(** A provider for the examples: it keeps the long names it was given, and
    returns the long name as the parameter; it rejects a long name that it
    has already. *)
Definition example_define (long : string) (pr : list string) :
  DefineResult (list string) string :=
  if decide (long ∈ pr)
  then Rejects pr (NewError "already defined")
  else Defines (pr ++ [long]) long.

Definition example_provider :
  CommandLineParameterProvider (list string) string := {|
  defineFlagParameter d := example_define (flag_parameterLongName d);
  defineChoiceParameter d := example_define (choice_parameterLongName d);
  defineStringParameter d := example_define (string_parameterLongName d)
|}.

(** A provider for the examples that accepts everything. *)
Definition lenient_provider :
  CommandLineParameterProvider (list string) string := {|
  defineFlagParameter d pr :=
    Defines (pr ++ [flag_parameterLongName d]) (flag_parameterLongName d);
  defineChoiceParameter d pr :=
    Defines (pr ++ [choice_parameterLongName d]) (choice_parameterLongName d);
  defineStringParameter d pr :=
    Defines (pr ++ [string_parameterLongName d]) (string_parameterLongName d)
|}.

Definition example_parameter (kind long : string) : ParameterJson :=
  {| parameterKind := kind; longName := long; shortName := None;
     description := "an example"; required := None;
     alternatives := [{| name := "debug" |}; {| name := "release" |}];
     defaultValue := Some "debug"; argumentName := "NAME" |}.

Definition example_action (ps : list ParameterJson) :
  BaseScriptAction (list string) string :=
  constructor [] (Some TheCommandLineConfiguration)
    {| associatedParameters := ps |}.

Definition example_parameters : list ParameterJson :=
  [example_parameter "flag" "--production";
   example_parameter "choice" "--mode";
   example_parameter "string" "--name"].

(** The action at the end of a method. *)
Definition result_of {A : Type} (c : Completion A) : A :=
  match c with
  | Returned this => this
  | Threw this _ => this
  end.

End BaseScriptAction.

(** * Properties *)

(** Closes a goal that asks for an extension of a list that has not
    changed. *)
Ltac no_growth := intros; exists []; by rewrite app_nil_r.

Create HintDb reflexive discriminated.

(** ** The interpreter *)

Lemma run_bind {A B : Type} (p : Prog A) (f : A → Prog B) (st : State) :
  run (p ≫= f) st =
  match run p st with
  | Normal st' a => run (f a) st'
  | Thrown st' e => Thrown st' e
  | Exhausted st' => Exhausted st'
  end.
Proof.
  revert st. induction p as [a|e| |op k IH]; intros st; try reflexivity.
  change (run (Op op k ≫= f) st) with
    (let '(st', x) := prim op st in run (k x ≫= f) st').
  simpl. destruct (prim op st) as [st' x]. apply IH.
Qed.

Lemma points_bind {A B : Type} (p : Prog A) (f : A → Prog B) (st : State) :
  points (p ≫= f) st =
  points p st ++
  match run p st with
  | Normal st' a => points (f a) st'
  | _ => []
  end.
Proof.
  revert st. induction p as [a|e| |op k IH]; intros st; try reflexivity.
  change (points (Op op k ≫= f) st) with
    ((st, op) ::
       let '(st', x) := prim op st in points (k x ≫= f) st').
  simpl. destruct (prim op st) as [st' x]. by rewrite IH.
Qed.

Lemma run_do (op : Prim) (st : State) :
  run (do op) st = Normal (prim op st).1 (prim op st).2.
Proof. unfold do. simpl. by destruct (prim op st). Qed.

Lemma run_iterM_cons {A : Type} (body : A → Prog unit) x xs st :
  run (iterM body (x :: xs)) st =
  match run (body x) st with
  | Normal st' _ => run (iterM body xs) st'
  | Thrown st' e => Thrown st' e
  | Exhausted st' => Exhausted st'
  end.
Proof. apply (run_bind (body x)). Qed.

Lemma run_for_of fuel a i body st :
  run (for_of fuel a i body) st =
  match default [] (arrays st !! a) !! i with
  | None => Normal st tt
  | Some c =>
      match fuel with
      | O => Exhausted st
      | S fuel' =>
          match run (body c) st with
          | Normal st' _ => run (for_of fuel' a (S i) body) st'
          | Thrown st' e => Thrown st' e
          | Exhausted st' => Exhausted st'
          end
      end
  end.
Proof.
  destruct fuel as [|fuel]; simpl;
    destruct (default [] (arrays st !! a) !! i) as [c|]; try reflexivity.
  apply (run_bind (body c)).
Qed.

(** ** Reading the log *)

Lemma calls_app l1 l2 : calls (l1 ++ l2) = calls l1 ++ calls l2.
Proof. apply omap_app. Qed.

Lemma posts_app l1 l2 : posts (l1 ++ l2) = posts l1 ++ posts l2.
Proof. apply omap_app. Qed.

Lemma requests_for_app h l1 l2 :
  requests_for h (l1 ++ l2) = requests_for h l1 ++ requests_for h l2.
Proof. apply omap_app. Qed.

Lemma removals_app h l1 l2 :
  removals h (l1 ++ l2) = removals h l1 + removals h l2.
Proof. unfold removals. by rewrite omap_app, length_app. Qed.

Lemma requests_for_posted h r :
  requests_for h [Posted (OutRequest r)] =
  if decide (hash r = h) then [r] else [].
Proof. unfold requests_for; simpl. by case_decide. Qed.

Lemma removals_posted h m : removals h [Posted m] = 0.
Proof. reflexivity. Qed.

Lemma removals_called h c r : removals h [Called c r] = 0.
Proof. reflexivity. Qed.

Lemma removals_removed h h' :
  removals h [Removed h'] = if decide (h' = h) then 1 else 0.
Proof. unfold removals; simpl. by case_decide. Qed.

Lemma registered_app h rcs1 rcs2 :
  registered h (rcs1 ++ rcs2) = registered h rcs1 ++ registered h rcs2.
Proof. unfold registered. by rewrite filter_app, fmap_app. Qed.

Lemma reentries_cons r c cbs :
  reentries r (c :: cbs) = cb_reenter c r ++ reentries r cbs.
Proof. reflexivity. Qed.

(** ** [minify] *)

(** A hash that has an entry: the callback is pushed on its array. *)
Lemma minify_pending st request callback a :
  _callbacks st !! hash request = Some a →
  run (minify request callback) st =
  Normal (set_arrays (alter (fun cs => cs ++ [callback]) a) st) tt.
Proof. intros H. unfold minify. simpl. rewrite H. reflexivity. Qed.

(** A hash that has none: a new array is stored, then the request
    posted. *)
Lemma minify_fresh st request callback :
  _callbacks st !! hash request = None →
  run (minify request callback) st =
  Normal (observe (Posted (OutRequest request))
            (set_callbacks (insert (hash request) (fresh (dom (arrays st))))
               (set_arrays (insert (fresh (dom (arrays st))) [callback])
                  st))) tt.
Proof. intros H. unfold minify. simpl. rewrite H. reflexivity. Qed.

Lemma same_port_refl st : same_port st st.
Proof. by unfold same_port. Qed.

#[local] Hint Resolve same_port_refl : reflexive.

Lemma same_port_trans st1 st2 st3 :
  same_port st1 st2 → same_port st2 st3 → same_port st1 st3.
Proof.
  unfold same_port. intros (?&?&?&?&?) (?&?&?&?&?).
  repeat split; congruence.
Qed.

Lemma evolves_refl st : wf st → evolves [] [] st st.
Proof.
  intros Hwf. split; auto using same_port_refl.
  - intros h. by rewrite app_nil_r.
  - by rewrite app_nil_r.
Qed.

Lemma evolves_trans rcs1 rcs2 cs1 cs2 st1 st2 st3 :
  evolves rcs1 cs1 st1 st2 → evolves rcs2 cs2 st2 st3 →
  evolves (rcs1 ++ rcs2) (cs1 ++ cs2) st1 st3.
Proof.
  intros [_ Hq1 Hd1 Hr1 Hc1 Hl1 Hp1] [Hwf Hq2 Hd2 Hr2 Hc2 Hl2 Hp2]. split.
  - done.
  - intros h. by rewrite Hq2, Hq1, registered_app, app_assoc.
  - eauto.
  - intros h. by rewrite Hr2, Hr1.
  - by rewrite Hc2, Hc1, app_assoc.
  - by etrans.
  - eauto using same_port_trans.
Qed.

Lemma fresh_array_not_held st h :
  wf st → _callbacks st !! h ≠ Some (fresh (dom (arrays st))).
Proof.
  intros Hwf Hh. destruct (wf_entry _ Hwf _ _ Hh) as (cbs & Hcbs & _).
  apply (is_fresh (dom (arrays st))), elem_of_dom. by exists cbs.
Qed.

(** [minify] on a well-formed state: it returns, the callback is added at
    the end of the queue of its hash, and nothing else is touched. *)
Lemma minify_spec st request callback :
  wf st →
  ∃ st', run (minify request callback) st = Normal st' tt ∧
         evolves [(request, callback)] [] st st'.
Proof.
  intros Hwf. destruct (_callbacks st !! hash request) as [a|] eqn:Hget.
  - rewrite (minify_pending _ _ _ _ Hget). eexists; split; [done|].
    destruct (wf_entry _ Hwf _ _ Hget) as (cbs & Hcbs & Hne).
    split; simpl.
    + split; simpl.
      * intros h a' Hh. destruct (decide (a' = a)) as [->|Hneq].
        -- exists (cbs ++ [callback]). rewrite lookup_alter_eq, Hcbs.
           split; [done|]. by destruct cbs.
        -- rewrite lookup_alter_ne by done. eauto using wf_entry.
      * apply Hwf.
      * apply Hwf.
    + intros h. unfold queue, registered; simpl.
      rewrite filter_cons, filter_nil; simpl.
      destruct (decide (hash request = h)) as [<-|Hneq]; simpl.
      * by rewrite Hget, lookup_alter_eq, Hcbs.
      * rewrite app_nil_r.
        destruct (_callbacks st !! h) as [a'|] eqn:Hh; [|done].
        rewrite lookup_alter_ne; [done|].
        intros <-. apply Hneq. eauto using wf_inj.
    + intros a0 cbs0 [Ha0 Hfree]. split; simpl; [|done].
      rewrite lookup_alter_ne; [done|]. intros <-. by apply (Hfree _ Hget).
    + done.
    + by rewrite app_nil_r.
    + done.
    + by unfold same_port.
  - rewrite (minify_fresh _ _ _ Hget). eexists; split; [done|].
    set (a := fresh (dom (arrays st))).
    assert (Hfresh : arrays st !! a = None).
    { apply not_elem_of_dom, is_fresh. }
    assert (Hheld : ∀ h, _callbacks st !! h ≠ Some a).
    { intros h. by apply fresh_array_not_held. }
    split; simpl.
    + split; simpl.
      * intros h a' Hh. destruct (decide (hash request = h)) as [<-|Hneq].
        -- rewrite lookup_insert_eq in Hh. injection Hh as <-.
           exists [callback]. by rewrite lookup_insert_eq.
        -- rewrite lookup_insert_ne in Hh by done.
           rewrite lookup_insert_ne; [eauto using wf_entry|].
           intros <-. by apply (Hheld h).
      * intros h1 h2 a' H1 H2.
        destruct (decide (hash request = h1)) as [<-|Hn1];
          destruct (decide (hash request = h2)) as [<-|Hn2]; [done|..].
        -- rewrite lookup_insert_eq in H1. injection H1 as <-.
           rewrite lookup_insert_ne in H2 by done. by destruct (Hheld h2).
        -- rewrite lookup_insert_eq in H2. injection H2 as <-.
           rewrite lookup_insert_ne in H1 by done. by destruct (Hheld h1).
        -- rewrite lookup_insert_ne in H1, H2 by done. eauto using wf_inj.
      * intros h. rewrite requests_for_app, removals_app, length_app.
        rewrite requests_for_posted, removals_posted.
        pose proof (wf_count _ Hwf h) as Hc.
        destruct (decide (hash request = h)) as [<-|Hneq].
        -- rewrite lookup_insert_eq. rewrite Hget in Hc. simpl. lia.
        -- rewrite lookup_insert_ne by done. simpl. lia.
    + intros h. unfold queue, registered; simpl.
      rewrite filter_cons, filter_nil; simpl.
      destruct (decide (hash request = h)) as [<-|Hneq]; simpl.
      * by rewrite Hget, !lookup_insert_eq.
      * rewrite app_nil_r, lookup_insert_ne by done.
        destruct (_callbacks st !! h) as [a'|] eqn:Hh; [|done].
        rewrite lookup_insert_ne; [done|]. intros <-. by apply (Hheld h).
    + intros a0 cbs0 [Ha0 Hfree]. split; simpl.
      * rewrite lookup_insert_ne; [done|]. intros <-. congruence.
      * intros h. destruct (decide (hash request = h)) as [<-|Hneq].
        -- rewrite lookup_insert_eq. intros [= <-]. congruence.
        -- rewrite lookup_insert_ne by done. apply Hfree.
    + intros h. by rewrite removals_app, removals_posted, Nat.add_0_r.
    + by rewrite calls_app.
    + by apply prefix_app_r.
    + by unfold same_port.
Qed.

(** Logging the entry of a callback touches neither the map nor the
    arrays. *)
Lemma enter_evolves st c r :
  wf st → evolves [] [(c, r)] st (observe (Called c r) st).
Proof.
  intros Hwf. split; simpl.
  - split; simpl; [apply Hwf..|].
    intros h. rewrite requests_for_app, removals_app, removals_called.
    simpl. rewrite app_nil_r. pose proof (wf_count _ Hwf h). lia.
  - intros h. by rewrite app_nil_r.
  - done.
  - intros h. by rewrite removals_app, removals_called, Nat.add_0_r.
  - by rewrite calls_app.
  - by apply prefix_app_r.
  - by unfold same_port.
Qed.

(** ** Calls made by client code *)

Lemma reenter_spec st rcs :
  wf st →
  ∃ st', run (iterM (fun rc => minify rc.1 rc.2) rcs) st = Normal st' tt ∧
         evolves rcs [] st st'.
Proof.
  revert st. induction rcs as [|[request callback] rcs IH]; intros st Hwf.
  - exists st. split; [done|]. by apply evolves_refl.
  - destruct (minify_spec st request callback Hwf) as (st1 & Hrun1 & Hev1).
    destruct (IH st1 (ev_wf _ _ _ _ Hev1)) as (st2 & Hrun2 & Hev2).
    exists st2. split.
    + rewrite run_iterM_cons. cbn [fst snd]. by rewrite Hrun1.
    + apply (evolves_trans [(request, callback)] rcs [] [] _ _ _ Hev1 Hev2).
Qed.

(** Invoking a callback: its entry is logged, then it registers what it
    re-enters [minify] with. *)
Lemma call_spec st callback message :
  wf st →
  ∃ st', run (call callback message) st = Normal st' tt ∧
         evolves (cb_reenter callback message)
           [(cb_name callback, message)] st st'.
Proof.
  intros Hwf.
  pose proof (enter_evolves st (cb_name callback) message Hwf) as Hev1.
  destruct (reenter_spec _ (cb_reenter callback message) (ev_wf _ _ _ _ Hev1))
    as (st2 & Hrun2 & Hev2).
  exists st2. split.
  - unfold call. rewrite run_bind, run_do. simpl. apply Hrun2.
  - apply (evolves_trans [] _ [_] [] _ _ _ Hev1 Hev2).
Qed.

(** ** The loop of [handler] *)

(** Over an array that the map no longer holds, the loop visits the
    elements from index [i] on, each once and in order, and ends before
    its fuel does: no call made by a callback can reach the array. *)
Lemma for_of_spec fuel a cbs message : ∀ i st,
  wf st → detached a cbs st → length cbs ≤ fuel + i →
  ∃ st', run (for_of fuel a i (fun callback => call callback message)) st
         = Normal st' tt ∧
         evolves (reentries message (drop i cbs))
           ((fun c => (cb_name c, message)) <$> drop i cbs) st st'.
Proof.
  induction fuel as [|fuel IH]; intros i st Hwf Hdet Hlen.
  - exists st. rewrite drop_ge by lia. split; [|by apply evolves_refl].
    rewrite run_for_of, (proj1 Hdet).
    change (default [] (Some cbs)) with cbs.
    by rewrite lookup_ge_None_2 by lia.
  - destruct (cbs !! i) as [c|] eqn:Hi.
    + rewrite (drop_S _ _ _ Hi).
      destruct (call_spec st c message Hwf) as (st1 & Hrun1 & Hev1).
      destruct (IH (S i) st1 (ev_wf _ _ _ _ Hev1)
                  (ev_detached _ _ _ _ Hev1 _ _ Hdet)) as (st2 & Hrun2 & Hev2);
        [lia|].
      exists st2. split.
      * rewrite run_for_of, (proj1 Hdet).
        change (default [] (Some cbs)) with cbs. by rewrite Hi, Hrun1.
      * rewrite reentries_cons, fmap_cons.
        apply (evolves_trans _ _ [_] _ _ _ _ Hev1 Hev2).
    + exists st. rewrite drop_ge by (by apply lookup_ge_None).
      split; [|by apply evolves_refl].
      rewrite run_for_of, (proj1 Hdet).
      change (default [] (Some cbs)) with cbs. by rewrite Hi.
Qed.

(** ** [handler] *)

Lemma typeof_object m : typeof m = "object" ↔ ∃ r, m = MResult r.
Proof. destruct m; split; try done; try by intros [? ?]. by eexists. Qed.

(** A message that is not an object: nothing happens. *)
Lemma handler_not_object st m :
  typeof m ≠ "object" → run (handler m) st = Normal st tt.
Proof. by destruct m. Qed.

(** A result whose hash has no entry: [callbacks.get] gives [undefined],
    [callbacks.delete] changes nothing, and the loop throws. *)
Lemma handler_absent st r :
  _callbacks st !! result_hash r = None →
  run (handler (MResult r)) st =
  Thrown st (TypeError "callbacksForRequest is not iterable").
Proof. intros H. unfold handler. simpl. by rewrite !H. Qed.

(** The state in which the loop of [handler] starts. *)
Lemma handler_present_run st r a :
  _callbacks st !! result_hash r = Some a →
  run (handler (MResult r)) st =
  run (for_of (length (default [] (arrays st !! a))) a 0
         (fun callback => call callback r))
    (observe (Removed (result_hash r))
       (set_callbacks (delete (result_hash r)) st)).
Proof. intros H. unfold handler. simpl. by rewrite !H. Qed.

(** A result whose hash has an entry: the entry is removed, then every
    callback of its array is invoked with the result, in array order. *)
Lemma handler_spec st r a :
  wf st → _callbacks st !! result_hash r = Some a →
  ∃ st', run (handler (MResult r)) st = Normal st' tt ∧
         delivers r (queue (result_hash r) st) st st'.
Proof.
  intros Hwf Hget. rewrite (handler_present_run _ _ _ Hget).
  destruct (wf_entry _ Hwf _ _ Hget) as (cbs & Hcbs & Hne).
  assert (Hq : queue (result_hash r) st = cbs).
  { unfold queue. by rewrite Hget, Hcbs. }
  rewrite Hq, Hcbs. change (default [] (Some cbs)) with cbs.
  set (st1 := observe _ _).
  assert (Hwf1 : wf st1).
  { split; simpl.
    - intros h a' Hh. apply lookup_delete_Some in Hh as [_ Hh].
      eauto using wf_entry.
    - intros h1 h2 a' H1 H2. apply lookup_delete_Some in H1 as [_ H1].
      apply lookup_delete_Some in H2 as [_ H2]. eauto using wf_inj.
    - intros h. rewrite requests_for_app, removals_app, removals_removed.
      simpl. rewrite app_nil_r. pose proof (wf_count _ Hwf h) as Hc.
      destruct (decide (result_hash r = h)) as [<-|Hneq].
      + rewrite lookup_delete_eq. rewrite Hget in Hc. lia.
      + rewrite lookup_delete_ne by done. lia. }
  assert (Hdet1 : detached a cbs st1).
  { split; simpl; [done|]. intros h Hh.
    apply lookup_delete_Some in Hh as [Hneq Hh].
    apply Hneq. eauto using wf_inj. }
  destruct (for_of_spec (length cbs) a cbs r 0 st1 Hwf1 Hdet1)
    as (st2 & Hrun & Hev); [lia|].
  rewrite drop_0 in Hev. exists st2. split; [done|].
  destruct Hev as [Hwf2 Hq2 Hd2 Hr2 Hc2 Hl2 Hp2]. split.
  - done.
  - intros h. rewrite Hq2. f_equal. unfold queue; simpl.
    destruct (decide (h = result_hash r)) as [->|Hneq].
    + by rewrite lookup_delete_eq.
    + by rewrite lookup_delete_ne.
  - intros h. rewrite Hr2. simpl. rewrite removals_app, removals_removed.
    by destruct (decide (h = result_hash r)) as [->|Hneq];
      [rewrite decide_True|rewrite decide_False].
  - rewrite Hc2. simpl. by rewrite calls_app, app_nil_r.
  - etrans; [|done]. by apply prefix_app_r.
  - done.
  - intros a' Ha'. rewrite Hget in Ha'. injection Ha' as <-. by apply Hd2.
Qed.

(** ** The port *)

Lemma same_heap_refl st : same_heap st st.
Proof. by unfold same_heap. Qed.

#[local] Hint Resolve same_heap_refl : reflexive.

Lemma same_heap_trans st1 st2 st3 :
  same_heap st1 st2 → same_heap st2 st3 → same_heap st1 st3.
Proof. unfold same_heap. intros (?&?&?) (?&?&?). repeat split; congruence. Qed.

Lemma same_heap_queue h st st' : same_heap st st' → queue h st' = queue h st.
Proof. intros (Hm & Ha & _). unfold queue. by rewrite Hm, Ha. Qed.

Lemma same_heap_wf st st' : same_heap st st' → wf st → wf st'.
Proof.
  intros (Hm & Ha & Hl) [H1 H2 H3].
  split; rewrite ?Hm, ?Ha, ?Hl; done.
Qed.

Lemma frame_refl h st : frame h st st.
Proof. split; [no_growth|done]. Qed.

#[local] Hint Resolve frame_refl : reflexive.

Lemma frame_trans h st1 st2 st3 :
  frame h st1 st2 → frame h st2 st3 → frame h st1 st3.
Proof.
  intros [[e1 Hq1] Hr1] [[e2 Hq2] Hr2]. split; [|congruence].
  exists (e1 ++ e2). by rewrite Hq2, Hq1, app_assoc.
Qed.

Lemma same_heap_frame h st st' : same_heap st st' → frame h st st'.
Proof.
  intros Hs. split.
  - exists []. by rewrite app_nil_r, (same_heap_queue _ _ _ Hs).
  - destruct Hs as (_ & _ & Hl). by rewrite Hl.
Qed.

Lemma evolves_frame h rcs cs st st' : evolves rcs cs st st' → frame h st st'.
Proof. intros Hev. split; [eexists|]; apply Hev. Qed.

Lemma delivers_frame h r cbs st st' :
  delivers r cbs st st' → result_hash r ≠ h → frame h st st'.
Proof.
  intros Hdl Hneq. split.
  - eexists. rewrite (dl_queue _ _ _ _ Hdl). by rewrite decide_False.
  - rewrite (dl_removals _ _ _ _ Hdl). rewrite decide_False by done. lia.
Qed.

(** The one-shot listener registered by [connect]. *)
Lemma run_dispatch_once m p st :
  run (dispatch m (OnceResolver p)) st =
  Normal (set_microtasks (fun q => q ++ [(p, JsArray [m])])
            (set_listeners (filter (fun l' => l' ≠ OnceResolver p)) st)) tt.
Proof. reflexivity. Qed.

Lemma run_connect_resume p v st :
  run (connect_resume p v) st =
  Normal (set_connections (fun cs => cs ++ [(p, v)])
            (set_listeners (fun ls => ls ++ [HandlerFn p]) st)) tt.
Proof. reflexivity. Qed.

Lemma run_connect st :
  run connect st =
  Normal (observe (Posted (OutString "initialize"))
            (set_listeners (fun ls => ls ++ [OnceResolver (promises st)])
               (set_promises (S (promises st)) st))) (promises st).
Proof. reflexivity. Qed.

Lemma run_disconnect p st :
  run (disconnect p) st =
  Normal (set_closed true
            (set_listeners (filter (fun l' => l' ≠ HandlerFn p)) st)) tt.
Proof. reflexivity. Qed.

Lemma filter_all {A : Type} (P : A → Prop) `{!∀ x, Decision (P x)}
  (l : list A) : (∀ x, x ∈ l → P x) → filter P l = l.
Proof.
  induction l as [|x l IH]; intros Hall; [done|].
  rewrite filter_cons_True by (apply Hall; left).
  f_equal. apply IH. intros y Hy. apply Hall. by right.
Qed.

Lemma filter_none {A : Type} (P : A → Prop) `{!∀ x, Decision (P x)}
  (l : list A) : (∀ x, x ∈ l → ¬ P x) → filter P l = [].
Proof.
  induction l as [|x l IH]; intros Hall; [done|].
  rewrite filter_cons_False by (apply Hall; left).
  apply IH. intros y Hy. apply Hall. by right.
Qed.

Lemma dispatched_nil m st : wf st → dispatched m [] st st.
Proof.
  intros Hwf. split; auto with reflexive.
  - simpl. symmetry. apply filter_all. intros l _. apply not_elem_of_nil.
  - simpl. by rewrite app_nil_r.
Qed.

Lemma dispatched_once m p ls st st' :
  dispatched m ls
    (set_microtasks (fun q => q ++ [(p, JsArray [m])])
       (set_listeners (filter (fun l' => l' ≠ OnceResolver p)) st)) st' →
  dispatched m (OnceResolver p :: ls) st st'.
Proof.
  intros [Hwf Hlog Hfr Hig Hls Hmt Hcl Hpr Hcn]. simpl in *.
  split; try done.
  - intros h Hh. destruct (Hfr h Hh) as [Hq Hr]. by split.
  - rewrite Hls. simpl. rewrite list_filter_filter.
    apply list_filter_iff. intros l. rewrite not_elem_of_cons. tauto.
  - rewrite Hmt. simpl. by rewrite <-app_assoc.
Qed.

Lemma dispatched_handler m q ls st st1 st' :
  log st `prefix_of` log st1 →
  (∀ h, (∀ r, m = MResult r → result_hash r ≠ h) → frame h st st1) →
  (typeof m ≠ "object" → same_heap st st1) →
  same_port st st1 →
  dispatched m ls st1 st' →
  dispatched m (HandlerFn q :: ls) st st'.
Proof.
  intros Hlog1 Hfr1 Hig1 (Hl1 & Hc1 & Hp1 & Hm1 & Hn1)
    [Hwf Hlog Hfr Hig Hls Hmt Hcl Hpr Hcn].
  split; simpl; try congruence.
  - by etrans.
  - eauto using frame_trans.
  - eauto using same_heap_trans.
Qed.

(** Handing a message to listeners, when all of them return. *)
Lemma dispatch_all_spec m ls : ∀ st st',
  wf st → run (iterM (dispatch m) ls) st = Normal st' tt →
  dispatched m ls st st'.
Proof.
  induction ls as [|l ls IH]; intros st st' Hwf Hrun.
  - injection Hrun as <-. by apply dispatched_nil.
  - rewrite run_iterM_cons in Hrun. destruct l as [p|q].
    + rewrite run_dispatch_once in Hrun.
      apply dispatched_once, IH; [|done].
      by apply (same_heap_wf st).
    + change (dispatch m (HandlerFn q)) with (handler m) in Hrun.
      destruct m as [s|r|n|].
      * apply (dispatched_handler _ _ _ st st);
          auto with reflexive.
      * destruct (_callbacks st !! result_hash r) as [a|] eqn:Hget.
        -- destruct (handler_spec st r a Hwf Hget) as (st1 & Hrun1 & Hdl).
           rewrite Hrun1 in Hrun.
           apply (dispatched_handler _ _ _ st st1).
           ++ apply Hdl.
           ++ intros h Hh. eapply delivers_frame; [done|]. by apply Hh.
           ++ done.
           ++ apply Hdl.
           ++ apply IH; [apply Hdl|done].
        -- by rewrite (handler_absent _ _ Hget) in Hrun.
      * apply (dispatched_handler _ _ _ st st);
          auto with reflexive.
      * apply (dispatched_handler _ _ _ st st);
          auto with reflexive.
Qed.

(** The continuations of [connect]: each installs its handler and hands
    out its connection. *)
Lemma resume_all_spec q : ∀ st,
  ∃ st', run (iterM (fun pv => connect_resume pv.1 pv.2) q) st
         = Normal st' tt ∧
         same_heap st st' ∧
         listeners st' = listeners st ++ (HandlerFn <$> q.*1) ∧
         connections st' = connections st ++ q ∧
         closed st' = closed st ∧ promises st' = promises st ∧
         microtasks st' = microtasks st.
Proof.
  induction q as [|[p v] q IH]; intros st.
  - exists st. by rewrite !app_nil_r.
  - rewrite run_iterM_cons. cbn [fst snd]. rewrite run_connect_resume.
    destruct (IH (set_connections (fun cs => cs ++ [(p, v)])
                    (set_listeners (fun ls => ls ++ [HandlerFn p]) st)))
      as (st' & -> & Hh & Hl & Hc & ? & ? & ?).
    exists st'. split; [done|]. simpl in *.
    rewrite Hl, Hc, <-!app_assoc. by destruct Hh as (? & ? & ?).
Qed.

Lemma run_emit m st :
  run (emit m) st =
  match run (iterM (dispatch m) (listeners st)) st with
  | Normal st1 _ =>
      run (iterM (fun pv => connect_resume pv.1 pv.2) (microtasks st1))
        (set_microtasks (fun _ => []) st1)
  | Thrown st1 e => Thrown st1 e
  | Exhausted st1 => Exhausted st1
  end.
Proof.
  unfold emit.
  change (run (do PortListeners ≫= _) st) with
    (run (iterM (dispatch m) (listeners st) ≫=
          (fun _ => q ← do TakeMicrotasks;
                    iterM (fun pv => connect_resume pv.1 pv.2) q)) st).
  rewrite run_bind. by destruct (run (iterM (dispatch m) (listeners st)) st).
Qed.

Lemma emit_spec m st st' :
  wf st → microtasks st = [] → run (emit m) st = Normal st' tt →
  emitted m st st'.
Proof.
  intros Hwf Hmt Hrun. rewrite run_emit in Hrun.
  destruct (run (iterM (dispatch m) (listeners st)) st)
    as [st1 []| |] eqn:Hrun1; [|done..].
  apply dispatch_all_spec in Hrun1 as [Hwf1 Hl1 Hf1 Hi1 Hls1 Hm1 Hc1 Hp1 Hn1];
    [|done].
  destruct (resume_all_spec (microtasks st1) (set_microtasks (fun _ => []) st1))
    as (st2 & Hrun2 & Hh2 & Hls2 & Hn2 & Hc2 & Hp2 & Hm2).
  rewrite Hrun2 in Hrun. injection Hrun as <-. simpl in *.
  assert (Hh12 : same_heap st1 st2) by (by destruct Hh2 as (? & ? & ?)).
  split.
  - by apply (same_heap_wf st1).
  - destruct Hh12 as (_ & _ & ->). done.
  - intros h Hh. eapply frame_trans; [by apply Hf1|].
    by apply same_heap_frame.
  - eauto using same_heap_trans.
  - rewrite Hls2, Hls1, Hm1, Hmt. simpl. do 2 f_equal.
    rewrite <-list_fmap_compose. by rewrite list_fmap_id.
  - done.
  - congruence.
  - congruence.
  - rewrite Hn2, Hn1, Hm1, Hmt. done.
Qed.

(** A message that is not an object: every listener returns, and the map,
    the arrays and the log stay as they are. *)
Lemma dispatch_all_ignored m ls : ∀ st,
  typeof m ≠ "object" →
  ∃ st', run (iterM (dispatch m) ls) st = Normal st' tt ∧ same_heap st st'.
Proof.
  induction ls as [|l ls IH]; intros st Hty.
  - exists st. split; [done|apply same_heap_refl].
  - rewrite run_iterM_cons. destruct l as [p|q].
    + rewrite run_dispatch_once.
      destruct (IH (set_microtasks (fun q => q ++ [(p, JsArray [m])])
                     (set_listeners (filter (fun l' => l' ≠ OnceResolver p))
                        st)) Hty) as (st' & -> & Hh).
      exists st'. split; [done|]. by destruct Hh as (? & ? & ?).
    + change (dispatch m (HandlerFn q)) with (handler m).
      rewrite (handler_not_object _ _ Hty). by apply IH.
Qed.

Lemma emit_ignored m st :
  typeof m ≠ "object" →
  ∃ st', run (emit m) st = Normal st' tt ∧ same_heap st st'.
Proof.
  intros Hty. rewrite run_emit.
  destruct (dispatch_all_ignored m (listeners st) st Hty) as (st1 & -> & Hh1).
  destruct (resume_all_spec (microtasks st1) (set_microtasks (fun _ => []) st1))
    as (st2 & -> & Hh2 & _).
  exists st2. split; [done|].
  eapply same_heap_trans; [done|]. by destruct Hh2 as (? & ? & ?).
Qed.

(** ** Events *)

Lemma same_port_ok st st' : same_port st st' → port_ok st → port_ok st'.
Proof.
  intros (Hl & Hc & Hp & Hm & Hn) [H1 H2 H3 H4].
  split; rewrite ?Hl, ?Hp, ?Hm, ?Hn; done.
Qed.

Lemma once_ids_handlers hs : once_ids (HandlerFn <$> hs) = [].
Proof. induction hs; [done|]. simpl. apply IHhs. Qed.

Lemma once_ids_onces os : once_ids (OnceResolver <$> os) = os.
Proof.
  induction os as [|p os IH]; [done|].
  change (once_ids (OnceResolver <$> p :: os))
    with (p :: once_ids (OnceResolver <$> os)).
  by rewrite IH.
Qed.

Lemma once_ids_app ls1 ls2 :
  once_ids (ls1 ++ ls2) = once_ids ls1 ++ once_ids ls2.
Proof. apply omap_app. Qed.

Lemma elem_of_once_ids p ls : p ∈ once_ids ls ↔ OnceResolver p ∈ ls.
Proof.
  unfold once_ids. rewrite list_elem_of_omap. split.
  - intros (l & Hl & Heq). destruct l; simplify_eq. done.
  - intros Hl. by exists (OnceResolver p).
Qed.

(** After the port has emitted a message, the listeners are the handlers
    that were installed, followed by the handlers of the [connect] calls
    that were waiting. *)
Lemma emitted_listeners hs os :
  filter (fun l => l ∉ OnceResolver <$> once_ids
                         ((HandlerFn <$> hs) ++ (OnceResolver <$> os)))
    ((HandlerFn <$> hs) ++ (OnceResolver <$> os)) = HandlerFn <$> hs.
Proof.
  rewrite once_ids_app, once_ids_handlers, once_ids_onces. simpl.
  rewrite filter_app, filter_all, filter_none.
  - by rewrite app_nil_r.
  - intros l Hl Hnot. by apply Hnot.
  - intros l Hl Hin. apply list_elem_of_fmap in Hl as (q & -> & _).
    apply list_elem_of_fmap in Hin as (p & ? & _). done.
Qed.

Lemma step_minify st request callback :
  step st (EMinify request callback) = run (minify request callback) st.
Proof. reflexivity. Qed.

Lemma step_connect st :
  step st EConnect =
  Normal (observe (Posted (OutString "initialize"))
            (set_listeners (fun ls => ls ++ [OnceResolver (promises st)])
               (set_promises (S (promises st)) st))) tt.
Proof. reflexivity. Qed.

Lemma step_message_closed st m :
  closed st = true → step st (EMessage m) = Normal st tt.
Proof. intros H. unfold step, program. by rewrite H. Qed.

Lemma step_message_open st m :
  closed st = false → step st (EMessage m) = run (emit m) st.
Proof. intros H. unfold step, program. by rewrite H. Qed.

Lemma step_disconnect st p :
  step st (EDisconnect p) =
  if decide (p ∈ (connections st).*1)
  then Normal (set_closed true
                 (set_listeners (filter (fun l' => l' ≠ HandlerFn p)) st)) tt
  else Normal st tt.
Proof. unfold step, program. by case_decide. Qed.

Lemma step_spec st ev st' :
  wf st → port_ok st → step st ev = Normal st' tt → stepped ev st st'.
Proof.
  intros Hwf Hpo Hstep. destruct ev as [request callback| |m|p].
  - rewrite step_minify in Hstep.
    destruct (minify_spec st request callback Hwf) as (st1 & Hrun & Hev).
    rewrite Hrun in Hstep. injection Hstep as <-.
    destruct Hev as [Hwf1 Hq1 _ Hr1 Hc1 Hl1 Hp1]. split; try done.
    + by apply (same_port_ok st).
    + intros h _. exists (registered h [(request, callback)]). eauto.
    + intros _. by rewrite Hc1, app_nil_r.
    + intros _. apply Hp1.
    + intros _ q. by destruct Hp1 as (-> & _).
    + intros _ q. by destruct Hp1 as (-> & _).
    + intros Hc. destruct Hp1 as (_ & -> & _). done.
  - rewrite step_connect in Hstep. injection Hstep as <-.
    destruct Hpo as [Hm (hs & os & Hls) Ho Hc]. split; simpl; try done.
    + split; simpl; [apply Hwf..|]. intros h.
      rewrite requests_for_app, removals_app, removals_posted. simpl.
      rewrite app_nil_r, Nat.add_0_r. apply Hwf.
    + split; simpl; [done|..].
      * exists hs, (os ++ [promises st]).
        by rewrite Hls, fmap_app, app_assoc.
      * intros p [Hp|Hp%list_elem_of_singleton]%elem_of_app.
        -- apply Ho in Hp. lia.
        -- injection Hp as ->. lia.
      * intros p Hp%Hc. lia.
    + by apply prefix_app_r.
    + intros h _. exists []. rewrite app_nil_r.
      by rewrite removals_app, removals_posted, Nat.add_0_r.
    + intros _. by rewrite calls_app, app_nil_r.
    + intros _ q [Hq|Hq%list_elem_of_singleton]%elem_of_app; done.
    + intros _ q Hq. apply elem_of_app. by left.
  - destruct (closed st) eqn:Hclosed.
    + rewrite step_message_closed in Hstep by done. injection Hstep as <-.
      split; try done. no_growth.
    + rewrite step_message_open in Hstep by done.
      destruct Hpo as [Hm (hs & os & Hls) Ho Hc].
      apply emit_spec in Hstep as [Hwf1 Hl1 Hf1 _ Hls1 Hm1 Hc1 Hp1 Hn1];
        [|done..].
      assert (Hls' : listeners st' = HandlerFn <$> (hs ++ os)).
      { rewrite Hls1, Hls, emitted_listeners, once_ids_app,
          once_ids_handlers, once_ids_onces. simpl. by rewrite fmap_app. }
      split; try done.
      * split; [done|..].
        -- exists (hs ++ os), []. by rewrite Hls', app_nil_r.
        -- intros p. rewrite Hls'.
           intros (q & ? & _)%list_elem_of_fmap. done.
        -- intros p. rewrite Hn1, Hp1, fmap_app.
           intros [Hp|Hp]%elem_of_app; [by apply Hc|].
           rewrite <-list_fmap_compose in Hp.
           apply list_elem_of_fmap in Hp as (q & -> & Hq). simpl.
           by apply Ho, elem_of_once_ids.
      * intros h Hh. destruct (Hf1 h) as [[ext Hq] Hr].
        { intros r [= ->]. simpl in Hh. by apply bool_decide_eq_false in Hh. }
        exists ext. split; [done|]. split; [apply sublist_nil_l|done].
      * congruence.
  - rewrite step_disconnect in Hstep. case_decide.
    + injection Hstep as <-.
      destruct Hpo as [Hm (hs & os & Hls) Ho Hc]. split; simpl; try done.
      * by apply (same_heap_wf st).
      * split; simpl; [done|..|done].
        -- exists (filter (fun q => q ≠ p) hs), os.
           rewrite Hls, filter_app. f_equal.
           ++ clear. induction hs as [|q hs IH]; [done|].
              rewrite fmap_cons, !filter_cons, IH.
              destruct (decide (q = p)) as [->|Hneq].
              ** rewrite !decide_False; [done|intros Hn; by apply Hn..].
              ** rewrite !decide_True; [done|congruence..].
           ++ apply filter_all. intros l (q & -> & _)%list_elem_of_fmap. done.
        -- intros q Hq%list_elem_of_filter. by apply Ho, Hq.
      * no_growth.
      * intros _ q Hq%list_elem_of_filter. apply Hq.
      * intros _ q Hq. by apply list_elem_of_filter.
    + injection Hstep as <-. split; try done.
      no_growth.
Qed.

(** ** Runs of events *)

Lemma run_events_app st evs1 evs2 :
  run_events st (evs1 ++ evs2) =
  match run_events st evs1 with
  | Normal st' _ => run_events st' evs2
  | o => o
  end.
Proof.
  revert st. induction evs1 as [|ev evs1 IH]; intros st; [done|].
  simpl. destruct (step st ev) as [st' []| |]; [apply IH|done..].
Qed.

Lemma client_registered_cons h ev evs :
  client_registered h (ev :: evs) =
  client_registered h [ev] ++ client_registered h evs.
Proof.
  unfold client_registered.
  change (ev :: evs) with ([ev] ++ evs). by rewrite omap_app, registered_app.
Qed.

Lemma init_wf : wf init.
Proof. split; intros *; rewrite ?lookup_empty; done. Qed.

Lemma init_port_ok : port_ok init.
Proof.
  split; simpl; try done.
  - by exists [], [].
  - intros p Hp. by apply not_elem_of_nil in Hp.
  - intros p Hp. by apply not_elem_of_nil in Hp.
Qed.

Lemma run_events_spec h evs : ∀ st st',
  wf st → port_ok st →
  forallb (fun ev => negb (answers h ev)) evs = true →
  run_events st evs = Normal st' tt →
  ran h evs st st'.
Proof.
  induction evs as [|ev evs IH]; intros st st' Hwf Hpo Hno Hrun.
  - injection Hrun as <-. split; try done.
    no_growth.
  - simpl in Hno. apply andb_prop in Hno as [Hev Hno].
    apply negb_true_iff in Hev. simpl in Hrun.
    destruct (step st ev) as [st1 []| |] eqn:Hstep; [|done..].
    apply step_spec in Hstep as [Hwf1 Hpo1 Hl1 Hf1 _ _ _ _ _]; [|done..].
    destruct (Hf1 h Hev) as (e1 & Hq1 & Hs1 & He1 & Hr1).
    destruct (IH st1 st' Hwf1 Hpo1 Hno Hrun)
      as [Hwf2 Hpo2 Hl2 (e2 & Hq2 & Hs2 & He2) Hr2].
    split; try done.
    + by etrans.
    + exists (e1 ++ e2). rewrite client_registered_cons. split; [|split].
      * by rewrite Hq2, Hq1, app_assoc.
      * by apply sublist_app.
      * simpl. intros [Hm1 Hm2]%andb_prop. by rewrite He1, He2.
    + congruence.
Qed.

Lemma run_events_inv evs : ∀ st st',
  wf st → port_ok st → run_events st evs = Normal st' tt →
  wf st' ∧ port_ok st'.
Proof.
  induction evs as [|ev evs IH]; intros st st' Hwf Hpo Hrun.
  - by injection Hrun as <-.
  - simpl in Hrun. destruct (step st ev) as [st1 []| |] eqn:Hstep; [|done..].
    apply step_spec in Hstep; [|done..].
    eapply IH; [apply Hstep..|done].
Qed.

Lemma reachable_inv st : reachable st → wf st ∧ port_ok st.
Proof.
  intros [evs Hrun].
  eapply run_events_inv; [apply init_wf|apply init_port_ok|done].
Qed.

Lemma reachable_init : reachable init.
Proof. by exists []. Qed.

Lemma queue_nonempty_entry h st :
  queue h st ≠ [] → is_Some (_callbacks st !! h).
Proof. unfold queue. by destruct (_callbacks st !! h). Qed.

Lemma entry_queue_nonempty h st :
  wf st → is_Some (_callbacks st !! h) → queue h st ≠ [].
Proof.
  intros Hwf [a Ha]. destruct (wf_entry _ Hwf _ _ Ha) as (cbs & Hcbs & Hne).
  unfold queue. by rewrite Ha, Hcbs.
Qed.

Lemma no_entry_queue h st : _callbacks st !! h = None → queue h st = [].
Proof. unfold queue. by intros ->. Qed.

(** Delivery of a result to a hash that has an entry. *)
Lemma deliver_spec st m :
  wf st → is_Some (_callbacks st !! result_hash m) →
  ∃ st', run (handler (MResult m)) st = Normal st' tt ∧
         delivers m (queue (result_hash m) st) st st'.
Proof. intros Hwf [a Ha]. by apply (handler_spec st m a). Qed.

Lemma registered_single h request callback :
  registered h [(request, callback)] =
  if decide (hash request = h) then [callback] else [].
Proof.
  unfold registered. rewrite filter_cons, filter_nil. simpl.
  by case_decide.
Qed.

Lemma minify_run_evolves st request callback st' :
  wf st → run (minify request callback) st = Normal st' tt →
  evolves [(request, callback)] [] st st'.
Proof.
  intros Hwf Hrun.
  destruct (minify_spec st request callback Hwf) as (st1 & Hrun1 & Hev).
  rewrite Hrun in Hrun1. by injection Hrun1 as <-.
Qed.

(** ** Every event ends, normally or by the one exception *)



(** With one connection open, the delivery of a message by the port is
    the run of its handler. *)
Lemma deliver_single st m q st' :
  wf st → port_ok st → closed st = false →
  listeners st = [HandlerFn q] →
  run (handler m) st = Normal st' tt →
  step st (EMessage m) = Normal st' tt.
Proof.
  intros Hwf Hpo Hopen Hls Hrun.
  assert (Hmt : microtasks st' = []).
  { rewrite <-(po_microtasks _ Hpo). destruct m as [s|r|n|];
      try (by injection Hrun as <-).
    destruct (_callbacks st !! result_hash r) as [a|] eqn:Hget.
    - destruct (handler_spec st r a Hwf Hget) as (st1 & Hrun1 & Hdl).
      rewrite Hrun in Hrun1. injection Hrun1 as <-.
      by destruct (dl_port _ _ _ _ Hdl) as (_ & _ & _ & -> & _).
    - by rewrite (handler_absent _ _ Hget) in Hrun. }
  rewrite step_message_open, run_emit, Hls, run_iterM_cons by done.
  change (dispatch m (HandlerFn q)) with (handler m).
  rewrite Hrun. simpl. rewrite Hmt. simpl.
  destruct st'; simpl in *. by rewrite Hmt.
Qed.

(** ** The order of the primitives *)

Lemma points_minify_pending st request callback a :
  _callbacks st !! hash request = Some a →
  points (minify request callback) st =
  [(st, MapGet (hash request)); (st, ArrayPush a callback)].
Proof. intros H. unfold minify. simpl. by rewrite H. Qed.

Lemma points_minify_fresh st request callback :
  _callbacks st !! hash request = None →
  points (minify request callback) st =
  let a := fresh (dom (arrays st)) in
  let st1 := set_arrays (insert a [callback]) st in
  let st2 := set_callbacks (insert (hash request) a) st1 in
  [(st, MapGet (hash request)); (st, ArrayLit callback);
   (st1, MapSet (hash request) a);
   (st2, PostMessage (OutRequest request))].
Proof. intros H. unfold minify. simpl. by rewrite H. Qed.

Lemma sends_ok_ret {A : Type} (a : A) : sends_ok (Ret a).
Proof. intros st s r Hin. by apply not_elem_of_nil in Hin. Qed.

Lemma sends_ok_bind {A B : Type} (p : Prog A) (f : A → Prog B) :
  sends_ok p → (∀ a, sends_ok (f a)) → sends_ok (p ≫= f).
Proof.
  intros Hp Hf st s r. rewrite points_bind.
  intros [Hin|Hin]%elem_of_app; [by apply (Hp st)|].
  destruct (run p st) as [st' a| |].
  - by apply (Hf a st').
  - by apply not_elem_of_nil in Hin.
  - by apply not_elem_of_nil in Hin.
Qed.

Lemma sends_ok_do (op : Prim) :
  (∀ r, op ≠ PostMessage (OutRequest r)) → sends_ok (do op).
Proof.
  intros Hop st s r Hin. unfold do in Hin. simpl in Hin.
  destruct (prim op st) as [st' x]. simpl in Hin.
  apply list_elem_of_singleton in Hin. injection Hin as _ Heq.
  by destruct (Hop r).
Qed.

Lemma sends_ok_iterM {A : Type} (body : A → Prog unit) (xs : list A) :
  (∀ x, sends_ok (body x)) → sends_ok (iterM body xs).
Proof.
  intros Hbody. induction xs as [|x xs IH]; [apply sends_ok_ret|].
  by apply (sends_ok_bind (body x)).
Qed.

Lemma sends_ok_minify request callback : sends_ok (minify request callback).
Proof.
  intros st s r Hin.
  destruct (_callbacks st !! hash request) as [a|] eqn:Hget.
  - rewrite (points_minify_pending _ _ _ _ Hget) in Hin.
    repeat (apply elem_of_cons in Hin as [Hin|Hin]; [done|]).
    by apply not_elem_of_nil in Hin.
  - rewrite (points_minify_fresh _ _ _ Hget) in Hin. simpl in Hin.
    do 3 (apply elem_of_cons in Hin as [Hin|Hin]; [done|]).
    apply list_elem_of_singleton in Hin. injection Hin as -> ->.
    simpl. rewrite lookup_insert_eq. eauto.
Qed.

Lemma sends_ok_call callback message : sends_ok (call callback message).
Proof.
  apply sends_ok_bind; [by apply sends_ok_do|]. intros _.
  apply sends_ok_iterM. intros [request c]. apply sends_ok_minify.
Qed.

Lemma sends_ok_for_of fuel a body : ∀ i,
  (∀ c, sends_ok (body c)) → sends_ok (for_of fuel a i body).
Proof.
  induction fuel as [|fuel IH]; intros i Hbody.
  - apply (sends_ok_bind (do (ArrayGet a i))); [by apply sends_ok_do|].
    intros [c|]; [|apply sends_ok_ret].
    intros st s r Hin. by apply not_elem_of_nil in Hin.
  - apply (sends_ok_bind (do (ArrayGet a i))); [by apply sends_ok_do|].
    intros [c|]; [|apply sends_ok_ret].
    apply (sends_ok_bind (body c)); [done|]. intros _. by apply IH.
Qed.

Lemma sends_ok_handler m : sends_ok (handler m).
Proof.
  destruct m as [s|r|n|]; try apply sends_ok_ret.
  apply (sends_ok_bind (do (MapGet (result_hash r)))); [by apply sends_ok_do|].
  intros callbacksForRequest.
  apply (sends_ok_bind (do (MapDelete (result_hash r))));
    [by apply sends_ok_do|].
  intros _. destruct callbacksForRequest as [a|].
  - apply (sends_ok_bind (do (ArrayLength a))); [by apply sends_ok_do|].
    intros n. apply sends_ok_for_of. intros c. apply sends_ok_call.
  - intros st s r' Hin. by apply not_elem_of_nil in Hin.
Qed.

Lemma sends_ok_emit m : sends_ok (emit m).
Proof.
  apply (sends_ok_bind (do PortListeners)); [by apply sends_ok_do|].
  intros ls. apply (sends_ok_bind (iterM (dispatch m) ls)).
  - apply sends_ok_iterM. intros [p|q].
    + apply (sends_ok_bind (do (PortOff (OnceResolver p))));
        [by apply sends_ok_do|].
      intros _. by apply sends_ok_do.
    + apply sends_ok_handler.
  - intros _.
    apply (sends_ok_bind (do TakeMicrotasks)); [by apply sends_ok_do|].
    intros q. apply sends_ok_iterM. intros [p v].
    apply (sends_ok_bind (do (PortOn (HandlerFn p)))); [by apply sends_ok_do|].
    intros _. by apply sends_ok_do.
Qed.

Lemma sends_ok_program st ev : sends_ok (program st ev).
Proof.
  destruct ev as [request callback| |m|p]; simpl.
  - apply sends_ok_minify.
  - apply (sends_ok_bind connect); [|intros; apply sends_ok_ret].
    apply (sends_ok_bind (do NewPromise)); [by apply sends_ok_do|].
    intros p.
    apply (sends_ok_bind (do (PortOn (OnceResolver p))));
      [by apply sends_ok_do|].
    intros _.
    apply (sends_ok_bind (do (PostMessage (OutString "initialize"))));
      [by apply sends_ok_do|].
    intros _. apply sends_ok_ret.
  - destruct (closed st); [apply sends_ok_ret|apply sends_ok_emit].
  - case_decide; [|apply sends_ok_ret].
    apply (sends_ok_bind (do (PortOff (HandlerFn p))));
      [by apply sends_ok_do|].
    intros _. by apply sends_ok_do.
Qed.

(** ** After [disconnect] *)

(** Without a handler among the listeners, a message reaches neither the
    map nor the arrays nor a callback. *)
Lemma dispatch_all_no_handler m ls : ∀ st,
  (∀ q, HandlerFn q ∉ ls) →
  ∃ st', run (iterM (dispatch m) ls) st = Normal st' tt ∧ same_heap st st'.
Proof.
  induction ls as [|l ls IH]; intros st Hno.
  - exists st. split; [done|apply same_heap_refl].
  - rewrite run_iterM_cons. destruct l as [p|q].
    + rewrite run_dispatch_once.
      destruct (IH (set_microtasks (fun q => q ++ [(p, JsArray [m])])
                     (set_listeners (filter (fun l' => l' ≠ OnceResolver p))
                        st))) as (st' & -> & Hh).
      { intros q Hq. apply (Hno q). by right. }
      exists st'. split; [done|]. by destruct Hh as (? & ? & ?).
    + destruct (Hno q). by left.
Qed.

Lemma emit_no_handler m st :
  (∀ q, HandlerFn q ∉ listeners st) →
  ∃ st', run (emit m) st = Normal st' tt ∧ same_heap st st'.
Proof.
  intros Hno. rewrite run_emit.
  destruct (dispatch_all_no_handler m (listeners st) st Hno)
    as (st1 & -> & Hh1).
  destruct (resume_all_spec (microtasks st1) (set_microtasks (fun _ => []) st1))
    as (st2 & -> & Hh2 & _).
  exists st2. split; [done|].
  eapply same_heap_trans; [done|]. by destruct Hh2 as (? & ? & ?).
Qed.

(** Once the port is closed, every event returns; no callback is invoked
    any more, no handler comes back, and the callbacks that wait keep
    waiting. *)
Lemma closed_run evs : ∀ st,
  wf st → port_ok st → closed st = true →
  ∃ st', run_events st evs = Normal st' tt ∧
         wf st' ∧ port_ok st' ∧ closed st' = true ∧
         calls (log st') = calls (log st) ∧
         (∀ q, HandlerFn q ∈ listeners st' → HandlerFn q ∈ listeners st) ∧
         (∀ h, ∃ ext, queue h st' = queue h st ++ ext).
Proof.
  induction evs as [|ev evs IH]; intros st Hwf Hpo Hcl.
  - exists st. split_and!; try done. no_growth.
  - assert (Hstep : ∃ st1, step st ev = Normal st1 tt ∧
                      calls (log st1) = calls (log st) ∧
                      (∀ q, HandlerFn q ∈ listeners st1 →
                            HandlerFn q ∈ listeners st) ∧
                      (∀ h, ∃ ext, queue h st1 = queue h st ++ ext)).
    { destruct ev as [request callback| |m|p].
      - rewrite step_minify.
        destruct (minify_spec st request callback Hwf) as (st1 & Hrun & Hev).
        exists st1. split; [done|]. split; [|split].
        + by rewrite (ev_calls _ _ _ _ Hev), app_nil_r.
        + intros q. by destruct (ev_port _ _ _ _ Hev) as (-> & _).
        + intros h. eexists. apply Hev.
      - rewrite step_connect. eexists. split; [done|]. split; [|split].
        + simpl. by rewrite calls_app, app_nil_r.
        + simpl. intros q [Hq|Hq%list_elem_of_singleton]%elem_of_app; done.
        + no_growth.
      - rewrite step_message_closed by done. exists st.
        split_and!; try done. no_growth.
      - rewrite step_disconnect. case_decide; eexists; (split; [done|]);
          simpl; split_and!; try done.
        + intros q Hq%list_elem_of_filter. apply Hq.
        + no_growth.
        + no_growth. }
    destruct Hstep as (st1 & Hstep & Hc1 & Hh1 & Hq1).
    pose proof (step_spec _ _ _ Hwf Hpo Hstep) as Hsp.
    destruct (IH st1 (sp_wf _ _ _ Hsp) (sp_port _ _ _ Hsp)
                (sp_closed _ _ _ Hsp Hcl))
      as (st' & Hrun & Hwf' & Hpo' & Hcl' & Hc' & Hh' & Hq').
    exists st'. simpl. rewrite Hstep. split_and!; try done.
    + congruence.
    + eauto.
    + intros h. destruct (Hq1 h) as [e1 He1], (Hq' h) as [e2 He2].
      exists (e1 ++ e2). by rewrite He2, He1, app_assoc.
Qed.

(** ** The handshake *)

Lemma quiet_run evs : ∀ st st',
  wf st → port_ok st →
  forallb (fun ev => negb (is_message ev)) evs = true →
  run_events st evs = Normal st' tt →
  wf st' ∧ port_ok st' ∧ connections st' = connections st ∧
  (∀ q, OnceResolver q ∈ listeners st → OnceResolver q ∈ listeners st').
Proof.
  induction evs as [|ev evs IH]; intros st st' Hwf Hpo Hq Hrun.
  - by injection Hrun as <-.
  - simpl in Hq. apply andb_prop in Hq as [Hev Hq].
    apply negb_true_iff in Hev. simpl in Hrun.
    destruct (step st ev) as [st1 []| |] eqn:Hstep; [|done..].
    apply step_spec in Hstep as [Hwf1 Hpo1 _ _ _ Hc1 _ Ho1 _]; [|done..].
    destruct (IH st1 st' Hwf1 Hpo1 Hq Hrun) as (? & ? & Hc & Ho).
    split_and!; try done.
    + rewrite Hc. by apply Hc1.
    + intros q Hin. by apply Ho, Ho1.
Qed.

(** What [connect] does, in a reachable state.  The call is numbered
    [promises st]; it posts the handshake, and its promise is not settled
    by the call, nor by any later event other than the delivery of a
    message.  The first message [m] that the port then delivers settles it,
    provided the port is open and all listeners return; the [configHash]
    of the connection is then the array [[m]] that [events.once] fulfils
    its promise with, and nothing else. *)
Lemma connect_handshake (st st2 st3 : State) (evs : list Event)
  (m : Message) :
  reachable st →
  ∃ st1,
    step st EConnect = Normal st1 tt ∧
    log st1 = log st ++ [Posted (OutString "initialize")] ∧
    (promises st ∉ (connections st1).*1) ∧
    (forallb (fun ev => negb (is_message ev)) evs = true →
     run_events st1 evs = Normal st2 tt →
     (promises st ∉ (connections st2).*1) ∧
     (closed st2 = false →
      step st2 (EMessage m) = Normal st3 tt →
      (promises st, JsArray [m]) ∈ connections st3 ∧
      ∀ v, (promises st, v) ∈ connections st3 → v = JsArray [m])).
Proof.
  intros [Hwf Hpo]%reachable_inv. rewrite step_connect.
  eexists. split; [done|]. split; [done|].
  assert (Hnot : promises st ∉ (connections st).*1).
  { intros Hin%(po_connections _ Hpo). lia. }
  split; [done|]. intros Hq Hrun.
  pose proof (step_connect st) as Hstep.
  apply step_spec in Hstep as [Hwf1 Hpo1 _ _ _ _ _ _ _]; [|done..].
  destruct (quiet_run _ _ _ Hwf1 Hpo1 Hq Hrun) as (Hwf2 & Hpo2 & Hc2 & Ho2).
  simpl in Hc2. split; [by rewrite Hc2|]. intros Hopen Hmsg.
  rewrite step_message_open in Hmsg by done.
  apply emit_spec in Hmsg as [_ _ _ _ _ _ _ _ Hc3];
    [|done|apply Hpo2].
  rewrite Hc3. split.
  - apply elem_of_app. right.
    apply (list_elem_of_fmap_2 (fun p => (p, JsArray [m]))).
    apply elem_of_once_ids, Ho2. simpl. apply elem_of_app. right. by left.
  - intros v [Hin|Hin]%elem_of_app.
    + destruct Hnot. rewrite <-Hc2.
      by apply (list_elem_of_fmap_2 fst) in Hin.
    + apply list_elem_of_fmap in Hin as (q & [= _ ->] & _). done.
Qed.

(** * The claims *)

(** C1 (deduplication).  Let [h] have no entry in a reachable state, and
    let the client call [minify] twice with requests of hash [h], with any
    events that deliver no result for [h] in between and after.  Then
    exactly one request for [h] has been posted, the first one; and when
    [handler] receives a result [m] for [h], it invokes the callbacks
    queued for [h], each once and with [m]: the first callback, then those
    registered for [h] in between ([e1]), then the second callback, then
    those registered after it ([e2]).  [e1] and [e2] are what the events in
    between registered: where these are calls of [minify] only, exactly
    their callbacks for [h], so none when there is no event in between.
    With one connection open, the delivery of [m] by the port is that run
    of [handler]. *)
Theorem minify_dedup (st st2 : State) (h : string)
  (r1 r2 : IModuleMinificationRequest)
  (c1 c2 : IModuleMinificationCallback)
  (mids1 mids2 : list Event) (m : IModuleMinificationResult) :
  reachable st →
  _callbacks st !! h = None →
  hash r1 = h → hash r2 = h → result_hash m = h →
  forallb (fun ev => negb (answers h ev)) mids1 = true →
  forallb (fun ev => negb (answers h ev)) mids2 = true →
  run_events st (EMinify r1 c1 :: mids1 ++ EMinify r2 c2 :: mids2)
  = Normal st2 tt →
  requests_for h (log st2) = requests_for h (log st) ++ [r1] ∧
  ∃ st3 e1 e2,
    run (handler (MResult m)) st2 = Normal st3 tt ∧
    calls (log st3) =
    calls (log st2) ++ ((fun c => (cb_name c, m)) <$> (c1 :: e1 ++ c2 :: e2)) ∧
    (forallb is_minify mids1 = true → e1 = client_registered h mids1) ∧
    (forallb is_minify mids2 = true → e2 = client_registered h mids2) ∧
    (∀ q, closed st2 = false → listeners st2 = [HandlerFn q] →
          step st2 (EMessage (MResult m)) = Normal st3 tt).
Proof.
  intros [Hwf Hpo]%reachable_inv Hnone Hr1 Hr2 Hm Hno1 Hno2 Hrun.
  (* the first call *)
  simpl in Hrun. rewrite step_minify in Hrun.
  destruct (run (minify r1 c1) st) as [st1 []| |] eqn:Hrun1; [|done..].
  pose proof (minify_run_evolves _ _ _ _ Hwf Hrun1) as Hev1.
  rewrite minify_fresh in Hrun1 by (by rewrite Hr1).
  assert (Hlog1 : log st1 = log st ++ [Posted (OutRequest r1)])
    by (by injection Hrun1 as <-).
  assert (Hent1 : is_Some (_callbacks st1 !! h)).
  { injection Hrun1 as <-. simpl. rewrite Hr1, lookup_insert_eq. eauto. }
  (* the events in between *)
  rewrite run_events_app in Hrun.
  destruct (run_events st1 mids1) as [sta []| |] eqn:Hruna; [|done..].
  apply (run_events_spec h) in Hruna
    as [Hwfa Hpoa Hloga (e1 & Hqa & _ & He1) Hrema];
    [|apply Hev1|apply (same_port_ok st); [apply Hev1|done]|done].
  (* the second call *)
  simpl in Hrun. rewrite step_minify in Hrun.
  destruct (run (minify r2 c2) sta) as [stb []| |] eqn:Hrunb; [|done..].
  apply minify_run_evolves in Hrunb as Hevb; [|done].
  (* the events after *)
  apply (run_events_spec h) in Hrun
    as [Hwf2 Hpo2 Hlog2 (e2 & Hq2 & _ & He2) Hrem2];
    [|apply Hevb|apply (same_port_ok sta); [apply Hevb|done]|done].
  assert (Hq : queue h st2 = c1 :: e1 ++ c2 :: e2).
  { rewrite Hq2, (ev_queue _ _ _ _ Hevb), Hqa, (ev_queue _ _ _ _ Hev1).
    rewrite (no_entry_queue _ _ Hnone), !registered_single.
    rewrite !decide_True by done. simpl. by rewrite <-!app_assoc. }
  assert (Hent2 : is_Some (_callbacks st2 !! h)).
  { apply queue_nonempty_entry. by rewrite Hq. }
  split.
  - assert (Hpre : log st1 `prefix_of` log st2).
    { etrans; [done|]. etrans; [apply Hevb|done]. }
    destruct Hpre as [k Hk].
    pose proof (wf_count _ (ev_wf _ _ _ _ Hev1) h) as Hn1.
    pose proof (wf_count _ Hwf2 h) as Hn2.
    destruct Hent1 as [a1 Ha1], Hent2 as [a2 Ha2].
    rewrite Ha1 in Hn1. rewrite Ha2 in Hn2.
    rewrite Hrem2, (ev_removals _ _ _ _ Hevb), Hrema in Hn2.
    rewrite Hk, requests_for_app, length_app in Hn2.
    rewrite Hk, Hlog1, !requests_for_app, requests_for_posted.
    rewrite decide_True by done.
    rewrite (nil_length_inv (requests_for h k)) by lia.
    by rewrite app_nil_r.
  - destruct (deliver_spec st2 m Hwf2) as (st3 & Hrun3 & Hdl);
      [by rewrite Hm|].
    exists st3, e1, e2. split_and!; try done.
    + rewrite (dl_calls _ _ _ _ Hdl). by rewrite Hm, Hq.
    + intros q Hopen Hls. by apply (deliver_single _ _ q).
Qed.

(** C2 (handshake).  [connect], then the reply "cfg-123" of the worker:
    the connection is handed out then, not before, and its [configHash] is
    the one-element array holding the reply, which is not the reply
    itself. *)
Theorem connect_configHash_is_array :
  (∃ st1, run_events init [EConnect] = Normal st1 tt ∧
          posts (log st1) = [OutString "initialize"] ∧
          connections st1 = []) ∧
  (∃ st2, run_events init [EConnect; EMessage (MString "cfg-123")]
          = Normal st2 tt ∧
          connections st2 = [(0, JsArray [MString "cfg-123"])] ∧
          listeners st2 = [HandlerFn 0]) ∧
  JsArray [MString "cfg-123"] ≠ JsMessage (MString "cfg-123").
Proof. split_and!; [by eexists|by eexists|done]. Qed.

(** C3, as stated, does not hold: results for two different hashes
    without entry make [handler] throw one and the same error, so no
    reading of the error gives the hash. *)
Lemma unknown_hash_not_identified :
  run (handler (MResult (IModuleMinificationSuccessResult "a" "x" None)))
    init
  = Thrown init (TypeError "callbacksForRequest is not iterable") ∧
  run (handler (MResult (IModuleMinificationSuccessResult "b" "x" None)))
    init
  = Thrown init (TypeError "callbacksForRequest is not iterable") ∧
  ¬ ∃ hash_of : JsError → string,
      ∀ st r, _callbacks st !! result_hash r = None →
              ∃ st' e, run (handler (MResult r)) st = Thrown st' e ∧
                       hash_of e = result_hash r.
Proof.
  split; [done|]. split; [done|]. intros [hash_of Hid].
  destruct (Hid init (IModuleMinificationSuccessResult "a" "x" None) eq_refl)
    as (sta & ea & Ha & Hea).
  destruct (Hid init (IModuleMinificationSuccessResult "b" "x" None) eq_refl)
    as (stb & eb & Hb & Heb).
  rewrite handler_absent in Ha, Hb by done.
  injection Ha as _ <-. injection Hb as _ <-.
  rewrite Hea in Heb. discriminate Heb.
Qed.

(** C3, amended.  A result for a hash without entry makes [handler] throw
    a [TypeError], with the state as it was: no callback was invoked, no
    entry touched.  In a reachable state with a handler installed and the
    port open, the delivery of such a result ends with that error, thrown
    out of the listener, and a run of events stops there.  The error does
    not depend on the hash. *)
Theorem unknown_hash_throws (st : State) (r : IModuleMinificationResult)
  (q : nat) (evs : list Event) :
  reachable st →
  closed st = false →
  HandlerFn q ∈ listeners st →
  _callbacks st !! result_hash r = None →
  run (handler (MResult r)) st
  = Thrown st (TypeError "callbacksForRequest is not iterable") ∧
  step st (EMessage (MResult r))
  = Thrown st (TypeError "callbacksForRequest is not iterable") ∧
  run_events st (EMessage (MResult r) :: evs)
  = Thrown st (TypeError "callbacksForRequest is not iterable").
Proof.
  intros [Hwf Hpo]%reachable_inv Hopen Hq Hnone.
  assert (Hstep : step st (EMessage (MResult r))
          = Thrown st (TypeError "callbacksForRequest is not iterable")).
  { rewrite step_message_open, run_emit by done.
    destruct (po_order _ Hpo) as (hs & os & Hls). rewrite Hls.
    destruct hs as [|q' hs].
    - rewrite Hls in Hq. simpl in Hq.
      apply list_elem_of_fmap in Hq as (? & ? & _). done.
    - rewrite fmap_cons. simpl app. rewrite run_iterM_cons.
      change (dispatch (MResult r) (HandlerFn q')) with (handler (MResult r)).
      by rewrite handler_absent. }
  split; [by apply handler_absent|]. split; [done|].
  simpl. by rewrite Hstep.
Qed.

(** C4 (FIFO delivery).  After any run of events that delivers no result
    for [h], a result [m] for [h] makes [handler] invoke, with [m] and in
    this order: the callbacks that were waiting for [h] before the run,
    then the callbacks registered for [h] during the run ([ext]).  The
    callbacks that the client registered by its calls of [minify] occur in
    [ext] in the order of these calls; where the run consists of calls of
    [minify] only, [ext] is exactly their list.  With one connection
    open, the delivery of [m] by the port is that run of [handler]. *)
Theorem fifo_delivery (st st1 : State) (h : string) (evs : list Event)
  (m : IModuleMinificationResult) :
  reachable st →
  forallb (fun ev => negb (answers h ev)) evs = true →
  run_events st evs = Normal st1 tt →
  result_hash m = h →
  is_Some (_callbacks st1 !! h) →
  ∃ st2 ext,
    run (handler (MResult m)) st1 = Normal st2 tt ∧
    calls (log st2) =
    calls (log st1) ++ ((fun c => (cb_name c, m)) <$> (queue h st ++ ext)) ∧
    client_registered h evs `sublist_of` ext ∧
    (forallb is_minify evs = true → ext = client_registered h evs) ∧
    (∀ q, closed st1 = false → listeners st1 = [HandlerFn q] →
          step st1 (EMessage (MResult m)) = Normal st2 tt).
Proof.
  intros [Hwf Hpo]%reachable_inv Hno Hrun Hm Hent.
  apply (run_events_spec h) in Hrun
    as [Hwf1 Hpo1 _ (ext & Hq & Hsub & Hext) _]; [|done..].
  destruct (deliver_spec st1 m Hwf1) as (st2 & Hrun2 & Hdl); [by rewrite Hm|].
  exists st2, ext. split_and!; try done.
  - rewrite (dl_calls _ _ _ _ Hdl). by rewrite Hm, Hq.
  - intros q Hopen Hls. by apply (deliver_single _ _ q).
Qed.

(** C5 (clean removal).  Let a result [m] be delivered for a hash that has
    an entry.  Afterwards the callbacks waiting for the hash are those,
    and only those, that the invoked callbacks registered by calling
    [minify] themselves, and the array that was removed is no longer in the
    map under that hash.  If they registered none, the hash has no entry,
    and the next call of [minify] for it starts afresh: it posts its
    request, and stores under the hash a new array, other than the one
    that was removed, that holds the new callback only. *)
Theorem clean_removal (st : State) (m : IModuleMinificationResult)
  (a : loc) (request : IModuleMinificationRequest)
  (callback : IModuleMinificationCallback) :
  reachable st →
  _callbacks st !! result_hash m = Some a →
  hash request = result_hash m →
  ∃ st1,
    run (handler (MResult m)) st = Normal st1 tt ∧
    queue (result_hash m) st1 =
    registered (result_hash m) (reentries m (queue (result_hash m) st)) ∧
    _callbacks st1 !! result_hash m ≠ Some a ∧
    (registered (result_hash m) (reentries m (queue (result_hash m) st)) = []
     →
     _callbacks st1 !! result_hash m = None ∧
     ∃ st2 a',
       run (minify request callback) st1 = Normal st2 tt ∧
       log st2 = log st1 ++ [Posted (OutRequest request)] ∧
       _callbacks st2 !! result_hash m = Some a' ∧
       a' ≠ a ∧ arrays st1 !! a' = None ∧
       arrays st2 !! a' = Some [callback]).
Proof.
  intros [Hwf _]%reachable_inv Hget Hh.
  destruct (handler_spec st m a Hwf Hget) as (st1 & Hrun1 & Hdl).
  destruct (dl_detached _ _ _ _ Hdl a Hget) as [Ha Hfree].
  exists st1. split_and!; try done.
  { rewrite (dl_queue _ _ _ _ Hdl). by rewrite decide_True. }
  intros Hnore.
  assert (Hnone : _callbacks st1 !! result_hash m = None).
  { destruct (_callbacks st1 !! result_hash m) as [a1|] eqn:Ha1; [|done].
    destruct (entry_queue_nonempty (result_hash m) st1 (dl_wf _ _ _ _ Hdl)).
    - by rewrite Ha1.
    - rewrite (dl_queue _ _ _ _ Hdl). by rewrite decide_True, Hnore. }
  split; [done|]. eexists. exists (fresh (dom (arrays st1))).
  split; [apply minify_fresh; by rewrite Hh|]. simpl.
  rewrite Hh, !lookup_insert_eq.
  assert (Hfresh : arrays st1 !! fresh (dom (arrays st1)) = None).
  { apply not_elem_of_dom, is_fresh. }
  split_and!; try done. intros Heq. congruence.
Qed.

(** C6 (registry invariant).  A response counts as delivered when
    [handler] takes the entry of its hash out of the map ([removals]
    counts these).  In every reachable state:
    - a hash has an entry exactly when one more request has been posted
      for it than entries of it were removed, and has none exactly when
      as many were posted as removed;
    - the array of every entry holds at least one callback;
    - an event that does not deliver a result for [h] removes no entry of
      [h], and leaves an entry of [h] in place;
    - a result for a hash that has an entry is handled by removing the
      entry, once, and invoking the callbacks of its array. *)
Theorem registry_invariant (st : State) :
  reachable st →
  (∀ h, is_Some (_callbacks st !! h) ↔
        length (requests_for h (log st)) = S (removals h (log st))) ∧
  (∀ h, _callbacks st !! h = None ↔
        length (requests_for h (log st)) = removals h (log st)) ∧
  (∀ h a, _callbacks st !! h = Some a →
          ∃ cbs, arrays st !! a = Some cbs ∧ cbs ≠ []) ∧
  (∀ h ev st', step st ev = Normal st' tt → answers h ev = false →
               removals h (log st') = removals h (log st) ∧
               (is_Some (_callbacks st !! h) →
                is_Some (_callbacks st' !! h))) ∧
  (∀ m, is_Some (_callbacks st !! result_hash m) →
        ∃ st', run (handler (MResult m)) st = Normal st' tt ∧
               removals (result_hash m) (log st') =
               S (removals (result_hash m) (log st)) ∧
               calls (log st') =
               calls (log st) ++
               ((fun c => (cb_name c, m)) <$> queue (result_hash m) st)).
Proof.
  intros [Hwf Hpo]%reachable_inv. split_and!.
  - intros h. pose proof (wf_count _ Hwf h) as Hc. split.
    + intros [a Ha]. rewrite Ha in Hc. lia.
    + intros Hn. destruct (_callbacks st !! h); [eauto|lia].
  - intros h. pose proof (wf_count _ Hwf h) as Hc. split.
    + intros Ha. rewrite Ha in Hc. lia.
    + intros Hn. destruct (_callbacks st !! h); [lia|done].
  - apply Hwf.
  - intros h ev st' Hstep Hev.
    apply step_spec in Hstep as [Hwf' _ _ Hf _ _ _ _ _]; [|done..].
    destruct (Hf h Hev) as (ext & Hq & _ & _ & Hr). split; [done|].
    intros Hent. apply queue_nonempty_entry. rewrite Hq.
    apply (entry_queue_nonempty h st Hwf) in Hent. by destruct (queue h st).
  - intros m Hent.
    destruct (deliver_spec st m Hwf Hent) as (st' & Hrun & Hdl).
    exists st'. split; [done|]. split; [|apply Hdl].
    rewrite (dl_removals _ _ _ _ Hdl). rewrite decide_True by done. lia.
Qed.

(** C7 (other message shapes).  A message that is not an object (a number,
    [false], or a string) makes [handler] return at once, with the state as
    it was; and when the port delivers it, all listeners return, and the
    map, the arrays and the log, hence the callbacks invoked so far, are
    as before. *)
Theorem router_ignores_non_results (st : State) (m : Message) :
  typeof m ≠ "object" →
  run (handler m) st = Normal st tt ∧
  ∃ st', step st (EMessage m) = Normal st' tt ∧
         _callbacks st' = _callbacks st ∧ arrays st' = arrays st ∧
         log st' = log st.
Proof.
  intros Hty. split; [by apply handler_not_object|].
  destruct (closed st) eqn:Hcl.
  - exists st. by rewrite step_message_closed.
  - rewrite step_message_open by done. by apply emit_ignored.
Qed.

(** C8 (teardown).  [disconnect] of a connection that was handed out, in a
    reachable state: its handler is removed from the listeners, the port
    is closed, and the map, the arrays and the log are not touched.
    From then on, whatever events follow: each returns, the port stays
    closed, the handler does not come back, no callback is invoked (the
    calls in the log stay as they were when [disconnect] returned), the
    callbacks that were waiting are still waiting, and the delivery of a
    message is a step that changes nothing.  Also, if the handler was the
    only one, a message emitted nonetheless would find no handler. *)
Theorem disconnect_teardown (st : State) (p : nat) :
  reachable st →
  p ∈ (connections st).*1 →
  ∃ st',
    step st (EDisconnect p) = Normal st' tt ∧
    listeners st' = filter (fun l => l ≠ HandlerFn p) (listeners st) ∧
    (HandlerFn p ∉ listeners st') ∧
    closed st' = true ∧
    same_heap st st' ∧
    (∀ evs, ∃ st'',
       run_events st' evs = Normal st'' tt ∧
       closed st'' = true ∧
       (HandlerFn p ∉ listeners st'') ∧
       calls (log st'') = calls (log st') ∧
       (∀ h, ∃ ext, queue h st'' = queue h st' ++ ext) ∧
       (∀ m, step st'' (EMessage m) = Normal st'' tt)) ∧
    ((∀ q, HandlerFn q ∈ listeners st → q = p) →
     ∀ m, ∃ st2, run (emit m) st' = Normal st2 tt ∧ same_heap st' st2).
Proof.
  intros [Hwf Hpo]%reachable_inv Hp.
  pose proof (step_disconnect st p) as Hstep.
  rewrite decide_True in Hstep by done.
  pose proof (step_spec _ _ _ Hwf Hpo Hstep) as Hsp.
  set (st' := set_closed true _) in *.
  assert (Hgone : HandlerFn p ∉ listeners st').
  { intros [Hne _]%list_elem_of_filter. by apply Hne. }
  exists st'. split_and!; try done.
  - intros evs.
    destruct (closed_run evs _ (sp_wf _ _ _ Hsp) (sp_port _ _ _ Hsp) eq_refl)
      as (st'' & Hrun & _ & _ & Hcl & Hc & Hh & Hq).
    exists st''. split_and!; try done.
    + intros Hin. by apply Hgone, Hh.
    + intros m. by apply step_message_closed.
  - intros Honly m. apply emit_no_handler.
    intros q [Hne Hq]%list_elem_of_filter. apply Hne. f_equal. by apply Honly.
Qed.

(** C9 ([minify] returns).  In any state, with any request and callback,
    [minify] returns normally: it does not throw and does not run out of
    fuel.  It invokes no callback, posts at most the one request, and
    leaves the port's listeners, the promises and the connections as they
    were.  (An error of the minifier is a result like any other:
    [handler] hands it to the callbacks as it does a success.) *)
Theorem minify_returns (st : State)
  (request : IModuleMinificationRequest)
  (callback : IModuleMinificationCallback) :
  ∃ st',
    run (minify request callback) st = Normal st' tt ∧
    calls (log st') = calls (log st) ∧
    (log st' = log st ∨ log st' = log st ++ [Posted (OutRequest request)]) ∧
    same_port st st'.
Proof.
  destruct (_callbacks st !! hash request) as [a|] eqn:Hget.
  - rewrite (minify_pending _ _ _ _ Hget). eexists. split; [done|].
    simpl. split_and!; [done|by left|by unfold same_port].
  - rewrite (minify_fresh _ _ _ Hget). eexists. split; [done|].
    simpl. rewrite calls_app, app_nil_r.
    split_and!; [done|by right|by unfold same_port].
Qed.

(** C10 (the entry is stored before the request is posted).  A call of
    [minify] for a hash without entry performs, in this order: the lookup,
    the creation of the array, the store into the map, the post; so the
    post happens in a state in which the map holds the entry with the
    callback.  No call of [minify] enters a callback.  And in every
    event, whenever a request is handed to the port, the map holds an
    entry for its hash. *)
Theorem store_before_post (st : State)
  (request : IModuleMinificationRequest)
  (callback : IModuleMinificationCallback) :
  (_callbacks st !! hash request = None →
   ∃ a st1 st2,
     points (minify request callback) st =
     [(st, MapGet (hash request)); (st, ArrayLit callback);
      (st1, MapSet (hash request) a);
      (st2, PostMessage (OutRequest request))] ∧
     _callbacks st2 !! hash request = Some a ∧
     arrays st2 !! a = Some [callback] ∧
     log st2 = log st) ∧
  (∀ s c r, (s, Enter c r) ∉ points (minify request callback) st) ∧
  (∀ ev s r, (s, PostMessage (OutRequest r)) ∈ points (program st ev) st →
             is_Some (_callbacks s !! hash r)).
Proof.
  split; [|split].
  - intros Hget. rewrite (points_minify_fresh _ _ _ Hget). simpl.
    eexists _, _, _. split; [done|]. simpl.
    by rewrite !lookup_insert_eq.
  - intros s c r Hin.
    destruct (_callbacks st !! hash request) as [a|] eqn:Hget.
    + rewrite (points_minify_pending _ _ _ _ Hget) in Hin.
      repeat (apply elem_of_cons in Hin as [Hin|Hin]; [done|]).
      by apply not_elem_of_nil in Hin.
    + rewrite (points_minify_fresh _ _ _ Hget) in Hin. simpl in Hin.
      repeat (apply elem_of_cons in Hin as [Hin|Hin]; [done|]).
      by apply not_elem_of_nil in Hin.
  - intros ev. apply sends_ok_program.
Qed.

(** * The concrete run, evaluated *)

(** The whole of it: the handshake, two requests for "a", the result,
    [disconnect], and the result once more.  One handshake and one request
    were posted; the two callbacks were called once each, in order; the
    message after [disconnect] reached nobody. *)
Example full_run :
  let st := final (run_events waiting
                     [EMessage (MResult result_a); EDisconnect 0;
                      EMessage (MResult result_a)]) in
  log st =
  [Posted (OutString "initialize"); Posted (OutRequest request_a);
   Removed "a"; Called 1 result_a; Called 2 result_a] ∧
  _callbacks st = ∅ ∧ listeners st = [] ∧ closed st = true.
Proof. by vm_compute. Qed.

(** A callback that asks for "a" again when it is called: its call of
    [minify] finds no entry, since the entry was removed before the loop,
    so a second request is posted and the new callback waits for the next
    result. *)
Example reentrant_run :
  let again := Callback 3 (fun _ => [(request_a, cb1)]) in
  let st := final (run_events connected
                     [EMinify request_a again;
                      EMessage (MResult result_a)]) in
  log st =
  [Posted (OutString "initialize"); Posted (OutRequest request_a);
   Removed "a"; Called 3 result_a; Posted (OutRequest request_a)] ∧
  queue "a" st = [cb1].
Proof. by vm_compute. Qed.

Lemma reachable_connected : reachable connected.
Proof. exists [EConnect; EMessage (MString "cfg-123")]. by vm_compute. Defined.

Lemma reachable_waiting : reachable waiting.
Proof.
  exists [EConnect; EMessage (MString "cfg-123");
          EMinify request_a cb1; EMinify request_a_again cb2].
  by vm_compute.
Defined.

Lemma minify_dedup_witness :
  requests_for "a" (log waiting) =
  requests_for "a" (log connected) ++ [request_a] ∧
  ∃ st3 e1 e2,
    run (handler (MResult result_a)) waiting = Normal st3 tt ∧
    calls (log st3) =
    calls (log waiting) ++
    ((fun c => (cb_name c, result_a)) <$> (cb1 :: e1 ++ cb2 :: e2)) ∧
    (forallb is_minify [] = true → e1 = client_registered "a" []) ∧
    (forallb is_minify [] = true → e2 = client_registered "a" []) ∧
    (∀ q, closed waiting = false → listeners waiting = [HandlerFn q] →
          step waiting (EMessage (MResult result_a)) = Normal st3 tt).
Proof.
  apply (minify_dedup connected waiting "a" request_a request_a_again
           cb1 cb2 [] [] result_a);
    [apply reachable_connected|by vm_compute..].
Defined.

Lemma fifo_delivery_witness :
  ∃ st2 ext,
    run (handler (MResult result_a)) waiting = Normal st2 tt ∧
    calls (log st2) =
    calls (log waiting) ++
    ((fun c => (cb_name c, result_a)) <$> (queue "a" connected ++ ext)) ∧
    client_registered "a"
      [EMinify request_a cb1; EMinify request_a_again cb2]
      `sublist_of` ext ∧
    (forallb is_minify [EMinify request_a cb1; EMinify request_a_again cb2]
     = true →
     ext = client_registered "a"
             [EMinify request_a cb1; EMinify request_a_again cb2]) ∧
    (∀ q, closed waiting = false → listeners waiting = [HandlerFn q] →
          step waiting (EMessage (MResult result_a)) = Normal st2 tt).
Proof.
  apply (fifo_delivery connected waiting "a"
           [EMinify request_a cb1; EMinify request_a_again cb2] result_a);
    [apply reachable_connected|by vm_compute..|].
  vm_compute. by eexists.
Defined.

Lemma clean_removal_witness :
  ∃ st1 st2 a',
    run (handler (MResult result_a)) waiting = Normal st1 tt ∧
    _callbacks st1 !! "a" = None ∧
    run (minify request_a cb1) st1 = Normal st2 tt ∧
    log st2 = log st1 ++ [Posted (OutRequest request_a)] ∧
    _callbacks st2 !! "a" = Some a' ∧
    a' ≠ 0 ∧ arrays st1 !! a' = None ∧
    arrays st2 !! a' = Some [cb1].
Proof.
  destruct (clean_removal waiting result_a 0 request_a cb1)
    as (st1 & Hrun1 & _ & _ & Hnext);
    [apply reachable_waiting|by vm_compute..|].
  destruct Hnext as (Hnone & st2 & a' & Hnext); [by vm_compute|].
  by exists st1, st2, a'.
Defined.

Lemma registry_invariant_witness :
  is_Some (_callbacks waiting !! "a") ↔
  length (requests_for "a" (log waiting)) = S (removals "a" (log waiting)).
Proof.
  destruct (registry_invariant waiting reachable_waiting) as [Hiff _].
  apply Hiff.
Defined.

Lemma router_ignores_non_results_witness :
  run (handler MFalse) waiting = Normal waiting tt ∧
  ∃ st', step waiting (EMessage MFalse) = Normal st' tt ∧
         _callbacks st' = _callbacks waiting ∧ arrays st' = arrays waiting ∧
         log st' = log waiting.
Proof.
  apply (router_ignores_non_results waiting MFalse). by vm_compute.
Defined.

Lemma disconnect_teardown_witness :
  ∃ st',
    step waiting (EDisconnect 0) = Normal st' tt ∧
    closed st' = true ∧
    (HandlerFn 0 ∉ listeners st') ∧
    ∀ evs, ∃ st'',
      run_events st' evs = Normal st'' tt ∧
      calls (log st'') = calls (log st').
Proof.
  destruct (disconnect_teardown waiting 0 reachable_waiting)
    as (st' & Hstep & _ & Hgone & Hcl & _ & Hafter & _).
  { vm_compute. left. }
  exists st'. split_and!; try done.
  intros evs. destruct (Hafter evs) as (st'' & Hrun & _ & _ & Hc & _).
  by exists st''.
Defined.

Lemma unknown_hash_throws_witness :
  run (handler (MResult result_a)) connected
  = Thrown connected (TypeError "callbacksForRequest is not iterable") ∧
  step connected (EMessage (MResult result_a))
  = Thrown connected (TypeError "callbacksForRequest is not iterable") ∧
  run_events connected [EMessage (MResult result_a)]
  = Thrown connected (TypeError "callbacksForRequest is not iterable").
Proof.
  apply (unknown_hash_throws connected result_a 0 []);
    [apply reachable_connected|by vm_compute| |by vm_compute].
  vm_compute. left.
Defined.

(** * Further properties of [MessagePortMinifier] *)

Lemma has_handler_false ls :
  has_handler ls = false → ∀ q, HandlerFn q ∉ ls.
Proof.
  induction ls as [|l ls IH]; intros Hno q Hin.
  - by apply not_elem_of_nil in Hin.
  - simpl in Hno. apply orb_false_iff in Hno as [Hl Hls].
    apply elem_of_cons in Hin as [<-|Hin]; [done|]. by apply (IH Hls q).
Qed.

Lemma has_once_false ls : has_once ls = false → once_ids ls = [].
Proof.
  induction ls as [|l ls IH]; intros Hno; [done|].
  simpl in Hno. apply orb_false_iff in Hno as [Hl Hls].
  destruct l; [done|]. by apply IH.
Qed.

(** The listeners and the connections after the port has emitted a
    message, all listeners having returned. *)
Lemma emitted_port m st st' :
  port_ok st → emitted m st st' →
  ∃ hs os,
    listeners st = (HandlerFn <$> hs) ++ (OnceResolver <$> os) ∧
    listeners st' = HandlerFn <$> (hs ++ os) ∧
    connections st' =
    connections st ++ ((fun p => (p, JsArray [m])) <$> os).
Proof.
  intros Hpo Hem. destruct (po_order _ Hpo) as (hs & os & Hls).
  exists hs, os. split; [done|].
  rewrite (em_listeners _ _ _ Hem), (em_connections _ _ _ Hem), Hls.
  rewrite emitted_listeners, once_ids_app, once_ids_handlers, once_ids_onces.
  simpl. by rewrite fmap_app.
Qed.

(** X1.  While a call of [connect] is waiting and no handler is installed,
    whatever message the port delivers, be it the result of a request that
    was posted before, settles the call with that message; it reaches no
    callback, and the callbacks that wait for its hash stay in the map. *)
Theorem handshake_takes_any_message (st : State) (p : nat) (m : Message) :
  reachable st →
  closed st = false →
  has_handler (listeners st) = false →
  OnceResolver p ∈ listeners st →
  ∃ st',
    step st (EMessage m) = Normal st' tt ∧
    (p, JsArray [m]) ∈ connections st' ∧
    _callbacks st' = _callbacks st ∧ arrays st' = arrays st ∧
    log st' = log st.
Proof.
  intros [Hwf Hpo]%reachable_inv Hopen Hno Hp.
  destruct (emit_no_handler m st (has_handler_false _ Hno))
    as (st' & Hrun & Hh).
  exists st'. rewrite step_message_open by done. split; [done|].
  split; [|done].
  apply emit_spec in Hrun; [|done|apply Hpo].
  rewrite (em_connections _ _ _ Hrun). apply elem_of_app. right.
  apply (list_elem_of_fmap_2 (fun p => (p, JsArray [m]))).
  by apply elem_of_once_ids.
Qed.

(** X2.  When the port delivers a message and all listeners return, every
    call of [connect] that was waiting is settled with the array of that
    message and has its handler installed, behind the handlers that were
    there; no one-shot listener is left.  A message delivered while no
    call of [connect] is waiting hands out no connection. *)
Theorem connects_settle_together (st st' : State) (m : Message) :
  reachable st →
  closed st = false →
  step st (EMessage m) = Normal st' tt →
  (∀ p, OnceResolver p ∈ listeners st →
        (p, JsArray [m]) ∈ connections st' ∧ HandlerFn p ∈ listeners st') ∧
  (∀ q, HandlerFn q ∈ listeners st → HandlerFn q ∈ listeners st') ∧
  has_once (listeners st') = false ∧
  (has_once (listeners st) = false →
   connections st' = connections st ∧ listeners st' = listeners st).
Proof.
  intros [Hwf Hpo]%reachable_inv Hopen Hstep.
  rewrite step_message_open in Hstep by done.
  apply emit_spec in Hstep; [|done|apply Hpo].
  destruct (emitted_port _ _ _ Hpo Hstep) as (hs & os & Hls & Hls' & Hc).
  split_and!.
  - intros p Hp. rewrite Hls in Hp.
    apply elem_of_app in Hp as [Hp|Hp].
    { apply list_elem_of_fmap in Hp as (? & ? & _). done. }
    apply list_elem_of_fmap in Hp as (p' & [= ->] & Hp). split.
    + rewrite Hc. apply elem_of_app. right.
      by apply (list_elem_of_fmap_2 (fun p => (p, JsArray [m]))).
    + rewrite Hls'. apply list_elem_of_fmap_2, elem_of_app. by right.
  - intros q Hq. rewrite Hls in Hq.
    apply elem_of_app in Hq as [Hq|Hq].
    + apply list_elem_of_fmap in Hq as (q' & [= ->] & Hq).
      rewrite Hls'. apply list_elem_of_fmap_2, elem_of_app. by left.
    + apply list_elem_of_fmap in Hq as (? & ? & _). done.
  - rewrite Hls'. clear. induction (hs ++ os) as [|q l IH]; [done|apply IH].
  - intros Hno. apply has_once_false in Hno.
    rewrite Hls, once_ids_app, once_ids_handlers, once_ids_onces in Hno.
    simpl in Hno. subst os.
    rewrite Hc, Hls', Hls. simpl. by rewrite !app_nil_r.
Qed.

(** X3.  With the handlers of two calls of [connect] installed, a result
    for a hash that has an entry is handled by the first handler, which
    removes the entry and invokes its callbacks; the second handler then
    finds no entry and throws (unless one of the callbacks asked for the
    hash again).  The delivery ends by the [TypeError], after the
    callbacks were invoked once. *)
Theorem second_handler_throws (st : State) (p q : nat)
  (ls : list Listener) (m : IModuleMinificationResult) :
  reachable st →
  closed st = false →
  listeners st = HandlerFn p :: HandlerFn q :: ls →
  is_Some (_callbacks st !! result_hash m) →
  registered (result_hash m) (reentries m (queue (result_hash m) st)) = [] →
  ∃ st1,
    run (handler (MResult m)) st = Normal st1 tt ∧
    step st (EMessage (MResult m))
    = Thrown st1 (TypeError "callbacksForRequest is not iterable") ∧
    calls (log st1) =
    calls (log st) ++
    ((fun c => (cb_name c, m)) <$> queue (result_hash m) st) ∧
    _callbacks st1 !! result_hash m = None.
Proof.
  intros [Hwf Hpo]%reachable_inv Hopen Hls Hent Hnore.
  destruct (deliver_spec st m Hwf Hent) as (st1 & Hrun & Hdl).
  assert (Hnone : _callbacks st1 !! result_hash m = None).
  { destruct (_callbacks st1 !! result_hash m) as [a1|] eqn:Ha1; [|done].
    destruct (entry_queue_nonempty (result_hash m) st1 (dl_wf _ _ _ _ Hdl)).
    - by rewrite Ha1.
    - rewrite (dl_queue _ _ _ _ Hdl). by rewrite decide_True, Hnore. }
  exists st1. split_and!; [done| |apply Hdl|done].
  rewrite step_message_open, run_emit, Hls, !run_iterM_cons by done.
  change (dispatch (MResult m) (HandlerFn p)) with (handler (MResult m)).
  rewrite Hrun, run_iterM_cons.
  change (dispatch (MResult m) (HandlerFn q)) with (handler (MResult m)).
  by rewrite (handler_absent _ _ Hnone).
Qed.

(** X4.  [disconnect] twice is [disconnect] once: the second call finds
    the handler removed and the port closed, and changes nothing. *)
Theorem disconnect_twice (st : State) (p : nat) :
  ∃ st1,
    step st (EDisconnect p) = Normal st1 tt ∧
    step st1 (EDisconnect p) = Normal st1 tt.
Proof.
  rewrite step_disconnect. case_decide as Hp.
  - eexists. split; [done|]. rewrite step_disconnect. simpl.
    rewrite decide_True by done. f_equal.
    destruct st as [m a ls c n q cs l]. unfold set_closed, set_listeners.
    simpl. f_equal. rewrite list_filter_filter.
    apply list_filter_iff. tauto.
  - exists st. split; [done|]. rewrite step_disconnect.
    by rewrite decide_False.
Qed.

(** X5.  The delivery of a result for one hash leaves the callbacks that
    wait for another hash [h] where they are, in their order; it invokes
    callbacks with this result only, and removes no entry of [h].  What
    may be added behind them is what the invoked callbacks registered for
    [h] by calling [minify]. *)
Theorem delivery_keeps_other_hashes (st : State)
  (m : IModuleMinificationResult) (h : string) :
  reachable st →
  is_Some (_callbacks st !! result_hash m) →
  h ≠ result_hash m →
  ∃ st',
    run (handler (MResult m)) st = Normal st' tt ∧
    queue h st' =
    queue h st ++ registered h (reentries m (queue (result_hash m) st)) ∧
    removals h (log st') = removals h (log st) ∧
    (is_Some (_callbacks st !! h) → is_Some (_callbacks st' !! h)) ∧
    ∃ new, calls (log st') = calls (log st) ++ new ∧
           ∀ c r, (c, r) ∈ new → r = m.
Proof.
  intros [Hwf _]%reachable_inv Hent Hneq.
  destruct (deliver_spec st m Hwf Hent) as (st' & Hrun & Hdl).
  exists st'. split; [done|].
  assert (Hq : queue h st' =
    queue h st ++ registered h (reentries m (queue (result_hash m) st))).
  { rewrite (dl_queue _ _ _ _ Hdl). by rewrite decide_False. }
  split_and!; try done.
  - rewrite (dl_removals _ _ _ _ Hdl). rewrite decide_False by done. lia.
  - intros Hh. apply queue_nonempty_entry. rewrite Hq.
    apply (entry_queue_nonempty h st Hwf) in Hh. by destruct (queue h st).
  - eexists. split; [apply Hdl|].
    intros c r (c' & [= _ ->] & _)%list_elem_of_fmap. done.
Qed.

Lemma closed_connections evs : ∀ st st',
  wf st → port_ok st → closed st = true →
  run_events st evs = Normal st' tt →
  connections st' = connections st.
Proof.
  induction evs as [|ev evs IH]; intros st st' Hwf Hpo Hcl Hrun.
  - by injection Hrun as <-.
  - simpl in Hrun. destruct (step st ev) as [st1 []| |] eqn:Hstep; [|done..].
    pose proof (step_spec _ _ _ Hwf Hpo Hstep) as Hsp.
    assert (Hc1 : connections st1 = connections st).
    { destruct (is_message ev) eqn:Hev.
      - destruct ev; try done.
        rewrite step_message_closed in Hstep by done. by injection Hstep as <-.
      - by apply Hsp. }
    rewrite <-Hc1.
    apply IH; [apply Hsp..| |done]. by apply Hsp.
Qed.

(** X6.  After [disconnect], a further call of [connect] returns a
    promise that is never settled: the call and whatever events follow all
    return, and the connections handed out stay those that were handed out
    before. *)
Theorem no_connection_after_disconnect (st : State) (p : nat)
  (evs : list Event) :
  reachable st →
  p ∈ (connections st).*1 →
  ∃ st' st'',
    step st (EDisconnect p) = Normal st' tt ∧
    run_events st' (EConnect :: evs) = Normal st'' tt ∧
    promises st < promises st'' ∧
    connections st'' = connections st.
Proof.
  intros [Hwf Hpo]%reachable_inv Hp.
  pose proof (step_disconnect st p) as Hstep.
  rewrite decide_True in Hstep by done.
  pose proof (step_spec _ _ _ Hwf Hpo Hstep) as Hsp.
  set (st' := set_closed true _) in *.
  pose proof (step_connect st') as Hstep1.
  pose proof (step_spec _ _ _ (sp_wf _ _ _ Hsp) (sp_port _ _ _ Hsp) Hstep1)
    as Hsp1.
  set (st1 := observe _ _) in *.
  destruct (closed_run evs st1 (sp_wf _ _ _ Hsp1) (sp_port _ _ _ Hsp1) eq_refl)
    as (st'' & Hrun & _).
  exists st', st''. split; [done|].
  split; [by change (run_events st' (EConnect :: evs))
               with (match step st' EConnect with
                     | Normal s _ => run_events s evs
                     | o => o
                     end); rewrite Hstep1|].
  assert (Hc : connections st'' = connections st1).
  { by apply (closed_connections evs st1 st'' (sp_wf _ _ _ Hsp1)
                (sp_port _ _ _ Hsp1) eq_refl Hrun). }
  split; [|by rewrite Hc].
  assert (Hmono : ∀ evs st0 st2, wf st0 → port_ok st0 →
            run_events st0 evs = Normal st2 tt → promises st0 ≤ promises st2).
  { clear. induction evs as [|ev evs IH]; intros st0 st2 Hwf Hpo Hrun.
    - by injection Hrun as <-.
    - simpl in Hrun.
      destruct (step st0 ev) as [st1 []| |] eqn:Hstep; [|done..].
      pose proof (step_spec _ _ _ Hwf Hpo Hstep) as Hsp.
      etrans; [|apply (IH st1 st2); [apply Hsp..|done]].
      destruct ev as [request callback| |m|p].
      + rewrite step_minify in Hstep.
        destruct (minify_spec st0 request callback Hwf) as (s & Hs & Hev).
        rewrite Hs in Hstep. injection Hstep as <-.
        by destruct (ev_port _ _ _ _ Hev) as (_ & _ & -> & _).
      + rewrite step_connect in Hstep. injection Hstep as <-. simpl. lia.
      + destruct (closed st0) eqn:Hcl.
        * rewrite step_message_closed in Hstep by done.
          by injection Hstep as <-.
        * rewrite step_message_open in Hstep by done.
          apply emit_spec in Hstep; [|done|apply Hpo].
          by rewrite (em_promises _ _ _ Hstep).
      + rewrite step_disconnect in Hstep.
        case_decide; by injection Hstep as <-. }
  apply Hmono in Hrun; [|apply Hsp1..]. simpl in Hrun. lia.
Qed.

Lemma first_requests_pending pending rc rcs :
  hash rc.1 ∈ pending →
  first_requests pending (rc :: rcs) = first_requests pending rcs.
Proof. intros Hin. simpl. by rewrite decide_True. Qed.

Lemma first_requests_fresh pending rc rcs :
  hash rc.1 ∉ pending →
  first_requests pending (rc :: rcs) =
  rc.1 :: first_requests ({[hash rc.1]} ∪ pending) rcs.
Proof. intros Hin. simpl. by rewrite decide_False. Qed.

Lemma minify_batch_run rcs : ∀ st,
  wf st →
  ∃ st',
    run_events st ((fun rc => EMinify rc.1 rc.2) <$> rcs) = Normal st' tt ∧
    wf st' ∧
    log st' =
    log st ++
    ((fun r => Posted (OutRequest r)) <$>
       first_requests (dom (_callbacks st)) rcs) ∧
    (∀ h, queue h st' = queue h st ++ registered h rcs) ∧
    calls (log st') = calls (log st).
Proof.
  induction rcs as [|[request callback] rcs IH]; intros st Hwf.
  - exists st. simpl. rewrite app_nil_r. split_and!; try done.
    intros h. by rewrite app_nil_r.
  - destruct (minify_spec st request callback Hwf) as (st1 & Hrun & Hev).
    destruct (IH st1 (ev_wf _ _ _ _ Hev))
      as (st' & Hrun' & Hwf' & Hlog' & Hq' & Hc').
    exists st'. rewrite fmap_cons. simpl run_events.
    rewrite step_minify. cbn [fst snd]. rewrite Hrun.
    split; [done|]. split; [done|]. split_and!.
    + rewrite Hlog'.
      destruct (_callbacks st !! hash request) as [a|] eqn:Hget.
      * rewrite (first_requests_pending (dom (_callbacks st)))
          by (apply elem_of_dom; eauto).
        rewrite (minify_pending _ _ _ _ Hget) in Hrun.
        by injection Hrun as <-.
      * rewrite (first_requests_fresh (dom (_callbacks st)))
          by (by apply not_elem_of_dom).
        rewrite (minify_fresh _ _ _ Hget) in Hrun. injection Hrun as <-.
        cbn [fst snd]. simpl log. simpl _callbacks.
        by rewrite dom_insert_L, fmap_cons, <-app_assoc.
    + intros h. rewrite Hq', (ev_queue _ _ _ _ Hev).
      change ((request, callback) :: rcs)
        with ([(request, callback)] ++ rcs).
      by rewrite registered_app, app_assoc.
    + by rewrite Hc', (ev_calls _ _ _ _ Hev), app_nil_r.
Qed.

(** X7.  A series of calls of [minify], in a reachable state: all return;
    what they post is, for each hash that had no entry, the request of the
    first call for that hash, in the order of these calls, and nothing
    else; every callback is queued behind those waiting for its hash, in
    the order of the calls; no callback is invoked. *)
Theorem minify_batch (st : State)
  (rcs : list (IModuleMinificationRequest * IModuleMinificationCallback)) :
  reachable st →
  ∃ st',
    run_events st ((fun rc => EMinify rc.1 rc.2) <$> rcs) = Normal st' tt ∧
    log st' =
    log st ++
    ((fun r => Posted (OutRequest r)) <$>
       first_requests (dom (_callbacks st)) rcs) ∧
    (∀ h, queue h st' = queue h st ++ registered h rcs) ∧
    calls (log st') = calls (log st).
Proof.
  intros [Hwf _]%reachable_inv.
  destruct (minify_batch_run rcs st Hwf) as (st' & ? & _ & ? & ? & ?).
  by exists st'.
Qed.

Lemma reachable_step st ev st' :
  reachable st → step st ev = Normal st' tt → reachable st'.
Proof.
  intros [evs Hrun] Hstep. exists (evs ++ [ev]).
  rewrite run_events_app, Hrun. simpl. by rewrite Hstep.
Qed.


(** X12.  The timing of the handshake.  A call of [connect] posts
    "initialize"; the events that follow, as long as the port delivers no
    message, do not settle it; the first message [m] that the open port
    delivers, all listeners returning, settles it, with the array of [m]
    and nothing else as its [configHash]. *)
Theorem connect_settles_at_first_message (st st2 st3 : State)
  (evs : list Event) (m : Message) :
  reachable st →
  forallb (fun ev => negb (is_message ev)) evs = true →
  run_events st (EConnect :: evs) = Normal st2 tt →
  closed st2 = false →
  step st2 (EMessage m) = Normal st3 tt →
  Posted (OutString "initialize") ∈ log st2 ∧
  (promises st ∉ (connections st2).*1) ∧
  (promises st, JsArray [m]) ∈ connections st3 ∧
  ∀ v, (promises st, v) ∈ connections st3 → v = JsArray [m].
Proof.
  intros Hreach Hquiet Hrun Hopen Hstep.
  destruct (connect_handshake st st2 st3 evs m Hreach)
    as (st1 & Hstep1 & Hlog1 & _ & Hrest).
  change (run_events st (EConnect :: evs))
    with (match step st EConnect with
          | Normal s _ => run_events s evs
          | o => o
          end) in Hrun.
  rewrite Hstep1 in Hrun.
  destruct (Hrest Hquiet Hrun) as [Hnot Hthen].
  destruct (Hthen Hopen Hstep) as [Hin Honly].
  split_and!; try done.
  pose proof (reachable_inv _ (reachable_step _ _ _ Hreach Hstep1))
    as [Hwf1 Hpo1].
  destruct (quiet_run _ _ _ Hwf1 Hpo1 Hquiet Hrun) as (_ & _ & _ & _).
  assert (Hpre : ∀ evs s s', wf s → port_ok s →
            run_events s evs = Normal s' tt → log s `prefix_of` log s').
  { clear. induction evs as [|ev evs IH]; intros s s' Hwf Hpo Hrun.
    - by injection Hrun as <-.
    - simpl in Hrun. destruct (step s ev) as [s1 []| |] eqn:Hs; [|done..].
      pose proof (step_spec _ _ _ Hwf Hpo Hs) as Hsp.
      etrans; [apply Hsp|]. apply (IH s1); [apply Hsp..|done]. }
  destruct (Hpre evs st1 st2 Hwf1 Hpo1 Hrun) as [k ->].
  rewrite Hlog1. apply elem_of_app. left. apply elem_of_app. right. by left.
Qed.

(** * The further properties on concrete runs *)

Lemma reachable_handshaking : reachable handshaking.
Proof. exists [EMinify request_a cb1; EConnect]. by vm_compute. Defined.

Lemma reachable_connected_twice : reachable connected_twice.
Proof.
  exists [EConnect; EConnect; EMessage (MString "cfg-123");
          EMinify request_a cb1].
  by vm_compute.
Defined.

Lemma reachable_waiting_ab : reachable waiting_ab.
Proof.
  exists [EConnect; EMessage (MString "cfg-123");
          EMinify request_a cb1; EMinify request_a_again cb2;
          EMinify request_b (Callback 3 (fun _ => []))].
  by vm_compute.
Defined.

Lemma handshake_takes_any_message_witness :
  ∃ st',
    step handshaking (EMessage (MResult result_a)) = Normal st' tt ∧
    (0, JsArray [MResult result_a]) ∈ connections st' ∧
    _callbacks st' = _callbacks handshaking ∧
    arrays st' = arrays handshaking ∧
    log st' = log handshaking.
Proof.
  apply (handshake_takes_any_message handshaking 0 (MResult result_a));
    [apply reachable_handshaking|by vm_compute..|].
  vm_compute. left.
Defined.

Lemma connects_settle_together_witness :
  (0, JsArray [MString "cfg-123"])
  ∈ connections (final (run_events init
                          [EConnect; EConnect; EMessage (MString "cfg-123")]))
  ∧
  (1, JsArray [MString "cfg-123"])
  ∈ connections (final (run_events init
                          [EConnect; EConnect; EMessage (MString "cfg-123")])).
Proof.
  destruct (connects_settle_together
              (final (run_events init [EConnect; EConnect]))
              (final (run_events init
                        [EConnect; EConnect; EMessage (MString "cfg-123")]))
              (MString "cfg-123")) as (Hsettle & _).
  - exists [EConnect; EConnect]. by vm_compute.
  - by vm_compute.
  - by vm_compute.
  - split.
    + apply (Hsettle 0). vm_compute. left.
    + apply (Hsettle 1). vm_compute. right. left.
Defined.

Lemma second_handler_throws_witness :
  ∃ st1,
    run (handler (MResult result_a)) connected_twice = Normal st1 tt ∧
    step connected_twice (EMessage (MResult result_a))
    = Thrown st1 (TypeError "callbacksForRequest is not iterable") ∧
    calls (log st1) =
    calls (log connected_twice) ++
    ((fun c => (cb_name c, result_a)) <$> queue "a" connected_twice) ∧
    _callbacks st1 !! "a" = None.
Proof.
  apply (second_handler_throws connected_twice 0 1 [] result_a);
    [apply reachable_connected_twice|by vm_compute..| |by vm_compute].
  vm_compute. by eexists.
Defined.

Lemma delivery_keeps_other_hashes_witness :
  ∃ st',
    run (handler (MResult result_a)) waiting_ab = Normal st' tt ∧
    queue "b" st' =
    queue "b" waiting_ab ++
    registered "b" (reentries result_a (queue "a" waiting_ab)) ∧
    removals "b" (log st') = removals "b" (log waiting_ab) ∧
    (is_Some (_callbacks waiting_ab !! "b") →
     is_Some (_callbacks st' !! "b")) ∧
    ∃ new, calls (log st') = calls (log waiting_ab) ++ new ∧
           ∀ c r, (c, r) ∈ new → r = result_a.
Proof.
  apply (delivery_keeps_other_hashes waiting_ab result_a "b");
    [apply reachable_waiting_ab| |by vm_compute].
  vm_compute. by eexists.
Defined.

Lemma no_connection_after_disconnect_witness :
  ∃ st' st'',
    step waiting (EDisconnect 0) = Normal st' tt ∧
    run_events st' [EConnect; EMessage (MString "cfg-456")]
    = Normal st'' tt ∧
    promises waiting < promises st'' ∧
    connections st'' = connections waiting.
Proof.
  apply (no_connection_after_disconnect waiting 0
           [EMessage (MString "cfg-456")]);
    [apply reachable_waiting|].
  vm_compute. left.
Defined.

Lemma minify_batch_witness :
  ∃ st',
    run_events connected
      ((fun rc => EMinify rc.1 rc.2) <$>
         [(request_a, cb1); (request_b, cb2); (request_a_again, cb2)])
    = Normal st' tt ∧
    log st' =
    log connected ++
    ((fun r => Posted (OutRequest r)) <$>
       first_requests (dom (_callbacks connected))
         [(request_a, cb1); (request_b, cb2); (request_a_again, cb2)]) ∧
    (∀ h, queue h st' =
          queue h connected ++
          registered h
            [(request_a, cb1); (request_b, cb2); (request_a_again, cb2)]) ∧
    calls (log st') = calls (log connected).
Proof.
  apply (minify_batch connected
           [(request_a, cb1); (request_b, cb2); (request_a_again, cb2)]).
  apply reachable_connected.
Defined.

(** The requests posted by the three calls above: one for "a", one for
    "b". *)
Example first_requests_example :
  first_requests (dom (_callbacks connected))
    [(request_a, cb1); (request_b, cb2); (request_a_again, cb2)]
  = [request_a; request_b].
Proof. by vm_compute. Qed.



Lemma connect_settles_at_first_message_witness :
  let st2 := final (run_events init [EConnect; EMinify request_a cb1]) in
  let st3 := final (step st2 (EMessage (MString "cfg-123"))) in
  Posted (OutString "initialize") ∈ log st2 ∧
  (promises init ∉ (connections st2).*1) ∧
  (promises init, JsArray [MString "cfg-123"]) ∈ connections st3 ∧
  ∀ v, (promises init, v) ∈ connections st3 → v = JsArray [MString "cfg-123"].
Proof.
  intros st2 st3.
  apply (connect_settles_at_first_message init st2 st3
           [EMinify request_a cb1] (MString "cfg-123"));
    [apply reachable_init|by vm_compute..].
Defined.

(** * Properties of [BaseScriptAction] *)

Module BaseScriptActionFacts.
Import BaseScriptAction.

Section WithProvider.
Context {Provider CommandLineParameter : Type}.
Context {methods : CommandLineParameterProvider Provider CommandLineParameter}.
Variable commandLineFilename : string.

Abbreviation defineEach := (defineEach commandLineFilename).
Abbreviation defineScriptParameters :=
  (defineScriptParameters commandLineFilename).

(** The [switch] reaches its [default] case exactly for the kinds it has
    no case for. *)
Lemma define_none parameter pr :
  define parameter pr = None ↔ ¬ supported parameter.
Proof.
  unfold define, supported. repeat case_decide; split; try done; tauto.
Qed.

Lemma define_some parameter pr r :
  define parameter pr = Some r → supported parameter.
Proof.
  intros Hd. destruct (decide (supported parameter)) as [|Hno]; [done|].
  apply (define_none parameter pr) in Hno. congruence.
Qed.

Lemma define_accepted parameter pr :
  accepts_all → supported parameter →
  ∃ pr' p, define parameter pr = Some (Defines pr' p).
Proof.
  intros (Hf & Hc & Hs) Hsup. unfold define.
  repeat case_decide.
  - destruct (Hf {| flag_parameterShortName := shortName parameter;
                    flag_parameterLongName := longName parameter;
                    flag_description := description parameter;
                    flag_required := required parameter |} pr)
      as (pr' & p & ->). eauto.
  - destruct (Hc {| choice_parameterShortName := shortName parameter;
                    choice_parameterLongName := longName parameter;
                    choice_description := description parameter;
                    choice_required := required parameter;
                    choice_alternatives := name <$> alternatives parameter;
                    choice_defaultValue := defaultValue parameter |} pr)
      as (pr' & p & ->). eauto.
  - destruct (Hs {| string_parameterLongName := longName parameter;
                    string_parameterShortName := shortName parameter;
                    string_description := description parameter;
                    string_required := required parameter;
                    string_argumentName := argumentName parameter |} pr)
      as (pr' & p & ->). eauto.
  - unfold supported in Hsup. tauto.
Qed.

Lemma defineEach_app ps1 ps2 : ∀ this,
  defineEach (ps1 ++ ps2) this =
  match defineEach ps1 this with
  | Returned this1 => defineEach ps2 this1
  | Threw this1 e => Threw this1 e
  end.
Proof.
  induction ps1 as [|p ps1 IH]; intros this; [done|].
  simpl. destruct (define p (provider this)) as [[pr' tsp|pr' e]|]; [|done..].
  apply IH.
Qed.

(** The entries that a loop that returns has added. *)
Lemma defineEach_returned ps : ∀ this this',
  defineEach ps this = Returned this' →
  ∃ new,
    customParameters this' = customParameters this ++ new ∧
    parameter <$> new = ps ∧
    Forall (fun entry =>
      ∃ pr pr', define (parameter entry) pr =
                Some (Defines pr' (tsCommandLineParameter entry))) new ∧
    Forall supported ps ∧
    command this' = command this ∧
    commandLineConfiguration this' = commandLineConfiguration this.
Proof.
  induction ps as [|p ps IH]; intros this this' Hrun.
  - injection Hrun as <-. exists []. by rewrite app_nil_r.
  - simpl in Hrun.
    destruct (define p (provider this)) as [[pr' tsp|pr' e]|] eqn:Hd;
      [|done..].
    apply IH in Hrun as (new & Hc & Hp & Hpair & Hsup & Hcmd & Hcfg).
    simpl in *.
    exists ({| parameter := p; tsCommandLineParameter := tsp |} :: new).
    split_and!; try done.
    + by rewrite Hc, <-app_assoc.
    + by rewrite fmap_cons, Hp.
    + constructor; [|done]. simpl. eauto.
    + constructor; [|done]. by apply (define_some p (provider this) _ Hd).
Qed.

Lemma defineEach_accepted ps : ∀ this,
  accepts_all → Forall supported ps →
  ∃ this', defineEach ps this = Returned this'.
Proof.
  induction ps as [|p ps IH]; intros this Hacc Hsup; [by eexists|].
  apply Forall_cons in Hsup as [Hp Hsup]. simpl.
  destruct (define_accepted p (provider this) Hacc Hp) as (pr' & tsp & ->).
  by apply IH.
Qed.

(** X8.  When [defineScriptParameters] returns: without a configuration it
    has done nothing; with one, every parameter associated with the
    command has a kind among "flag", "choice" and "string", and
    [customParameters] has gained one entry for each of them, in their
    order, pairing it with a parameter that the provider returned for its
    definition. *)
Theorem defineScriptParameters_registers
  (this this' : BaseScriptAction Provider CommandLineParameter) :
  defineScriptParameters this = Returned this' →
  (commandLineConfiguration this = None → this' = this) ∧
  (commandLineConfiguration this ≠ None →
   Forall supported (associatedParameters (command this)) ∧
   ∃ new,
     customParameters this' = customParameters this ++ new ∧
     parameter <$> new = associatedParameters (command this) ∧
     Forall (fun entry =>
       ∃ pr pr', define (parameter entry) pr =
                 Some (Defines pr' (tsCommandLineParameter entry))) new).
Proof.
  unfold BaseScriptAction.defineScriptParameters. intros Hrun.
  destruct (commandLineConfiguration this) as [cfg|].
  - split; [done|]. intros _.
    apply defineEach_returned in Hrun as (new & ? & ? & ? & ? & _).
    split; [done|]. by exists new.
  - injection Hrun as <-. by split.
Qed.

(** X9.  With a configuration and a provider that accepts every
    definition: at the first associated parameter whose kind is none of
    "flag", "choice" and "string", [defineScriptParameters] throws an
    error whose message names the file, the long name of the parameter and
    its kind.  The parameters before it stay defined and registered; those
    after it are not looked at. *)
Theorem defineScriptParameters_unsupported_kind
  (this : BaseScriptAction Provider CommandLineParameter)
  (before after : list ParameterJson) (bad : ParameterJson) :
  accepts_all →
  commandLineConfiguration this ≠ None →
  associatedParameters (command this) = before ++ bad :: after →
  Forall supported before →
  ¬ supported bad →
  ∃ this1,
    defineScriptParameters this =
    Threw this1
      (NewError
         (commandLineFilename +:+ " defines a parameter " +:+ quote +:+
          longName bad +:+ quote +:+
          " using an unsupported parameter kind " +:+ quote +:+
          parameterKind bad +:+ quote)) ∧
    parameter <$> customParameters this1 =
    (parameter <$> customParameters this) ++ before.
Proof.
  intros Hacc Hcfg Hps Hsup Hbad.
  unfold BaseScriptAction.defineScriptParameters.
  destruct (commandLineConfiguration this) as [cfg|]; [|done].
  rewrite Hps, defineEach_app.
  destruct (defineEach_accepted before this Hacc Hsup) as (this1 & Hrun).
  rewrite Hrun. exists this1. split.
  - simpl. by rewrite (proj2 (define_none bad (provider this1)) Hbad).
  - apply defineEach_returned in Hrun as (new & -> & <- & _).
    by rewrite fmap_app.
Qed.

(** X10.  With a configuration and a provider that accepts every
    definition, [defineScriptParameters] returns exactly when every
    associated parameter has a kind among "flag", "choice" and
    "string". *)
Theorem defineScriptParameters_returns_iff
  (this : BaseScriptAction Provider CommandLineParameter) :
  accepts_all →
  commandLineConfiguration this ≠ None →
  (∃ this', defineScriptParameters this = Returned this') ↔
  Forall supported (associatedParameters (command this)).
Proof.
  intros Hacc Hcfg. unfold BaseScriptAction.defineScriptParameters.
  destruct (commandLineConfiguration this) as [cfg|]; [|done]. split.
  - intros [this' Hrun].
    by apply defineEach_returned in Hrun as (? & ? & ? & ? & ? & _).
  - intros Hsup. by apply defineEach_accepted.
Qed.

(** X11.  An exception of the provider passes through: when the loop has
    gone through the parameters before [p], and the provider rejects the
    definition of [p], [defineScriptParameters] throws the exception of
    the provider; the parameters before [p] stay registered, and [p] is
    not. *)
Theorem defineScriptParameters_rejected
  (this this1 : BaseScriptAction Provider CommandLineParameter)
  (before after : list ParameterJson) (p : ParameterJson)
  (pr' : Provider) (e : JsException) :
  commandLineConfiguration this ≠ None →
  associatedParameters (command this) = before ++ p :: after →
  defineEach before this = Returned this1 →
  define p (provider this1) = Some (Rejects pr' e) →
  ∃ this2,
    defineScriptParameters this = Threw this2 e ∧
    provider this2 = pr' ∧
    parameter <$> customParameters this2 =
    (parameter <$> customParameters this) ++ before.
Proof.
  unfold BaseScriptAction.defineScriptParameters.
  intros Hcfg Hps Hrun Hrej.
  destruct (commandLineConfiguration this) as [cfg|] eqn:Hc; [|done].
  rewrite Hps, defineEach_app, Hrun. simpl. rewrite Hrej.
  eexists. split; [done|]. split; [done|]. simpl.
  apply defineEach_returned in Hrun as (new & -> & <- & _).
  by rewrite fmap_app.
Qed.

End WithProvider.

(** ** On examples *)

Lemma lenient_accepts_all : accepts_all (methods := lenient_provider).
Proof. split_and!; intros d pr; by eexists _, _. Defined.

Lemma defineScriptParameters_registers_witness :
  let this := example_action example_parameters in
  let this' :=
    result_of (defineScriptParameters (methods := example_provider)
                 "command-line.json" this) in
  (commandLineConfiguration this = None → this' = this) ∧
  (commandLineConfiguration this ≠ None →
   Forall supported (associatedParameters (command this)) ∧
   ∃ new,
     customParameters this' = customParameters this ++ new ∧
     parameter <$> new = associatedParameters (command this) ∧
     Forall (fun entry =>
       ∃ pr pr', define (methods := example_provider) (parameter entry) pr =
                 Some (Defines pr' (tsCommandLineParameter entry))) new).
Proof.
  intros this this'.
  apply (defineScriptParameters_registers (methods := example_provider)
           "command-line.json" this this').
  by vm_compute.
Defined.

Lemma defineScriptParameters_unsupported_kind_witness :
  let bad := example_parameter "integer" "--count" in
  let this :=
    example_action
      ([example_parameter "flag" "--production"] ++
       bad :: [example_parameter "string" "--name"]) in
  ∃ this1,
    defineScriptParameters (methods := lenient_provider) "command-line.json" this =
    Threw this1
      (NewError
         ("command-line.json" +:+ " defines a parameter " +:+ quote +:+
          longName bad +:+ quote +:+
          " using an unsupported parameter kind " +:+ quote +:+
          parameterKind bad +:+ quote)) ∧
    parameter <$> customParameters this1 =
    (parameter <$> customParameters this) ++
    [example_parameter "flag" "--production"].
Proof.
  intros bad this.
  apply (defineScriptParameters_unsupported_kind (methods := lenient_provider)
           "command-line.json" this
           [example_parameter "flag" "--production"]
           [example_parameter "string" "--name"] bad).
  - apply lenient_accepts_all.
  - by vm_compute.
  - by vm_compute.
  - by vm_compute; repeat constructor.
  - vm_compute. intros [H|[H|H]]; discriminate H.
Defined.

Lemma defineScriptParameters_returns_iff_witness :
  (∃ this',
     defineScriptParameters (methods := lenient_provider) "command-line.json"
       (example_action example_parameters) = Returned this') ↔
  Forall supported example_parameters.
Proof.
  apply (defineScriptParameters_returns_iff (methods := lenient_provider)
           "command-line.json" (example_action example_parameters)).
  - apply lenient_accepts_all.
  - by vm_compute.
Defined.

Lemma defineScriptParameters_rejected_witness :
  let again := example_parameter "choice" "--production" in
  let this :=
    example_action
      ([example_parameter "flag" "--production"] ++
       again :: [example_parameter "string" "--name"]) in
  ∃ this2,
    defineScriptParameters (methods := example_provider) "command-line.json" this
    = Threw this2 (NewError "already defined") ∧
    provider this2 = ["--production"] ∧
    parameter <$> customParameters this2 =
    (parameter <$> customParameters this) ++
    [example_parameter "flag" "--production"].
Proof.
  intros again this.
  apply (defineScriptParameters_rejected (methods := example_provider)
           "command-line.json" this
           (result_of (defineEach (methods := example_provider)
                         "command-line.json"
                         [example_parameter "flag" "--production"] this))
           [example_parameter "flag" "--production"]
           [example_parameter "string" "--name"] again
           ["--production"] (NewError "already defined"));
    by vm_compute.
Defined.

(** The message of the error for a parameter of the kind "integer". *)
Example unsupported_message_example :
  unsupported_message "command-line.json"
    (example_parameter "integer" "--count") =
  "command-line.json defines a parameter " +:+ quote +:+ "--count" +:+
  quote +:+ " using an unsupported parameter kind " +:+ quote +:+
  "integer" +:+ quote.
Proof. reflexivity. Qed.

End BaseScriptActionFacts.

